(** * Echo signalling server: a shallow embedding of the server module

    The server keeps its state in module-level JavaScript [Map]s, [Set]s and
    arrays and mutates them from socket.io event handlers and Express
    routes.  Every handler is embedded as a pure function from the state
    before to the state after plus the list of effects it performs (the
    emits, in program order, and the Redis commands).

    Conventions:
    - JavaScript numbers that hold counters and [Date.now()] readings are
      integers, modelled in [Z];
    - [Date.now()] is an argument of the handler that reads it;
    - maps that are only looked up by key ([rateMap], [userRooms],
      [__activeCalls]) are [gmap string _] and [onlineUserIds] is a
      [gset string]; the [users] map and the participant sets are iterated
      ([Array.from]) and keep JavaScript's insertion order, so they are
      lists;
    - a value that may be [undefined] or [null] is an [option]. *)

From stdpp Require Import base option list strings pretty gmap.
From Stdlib Require Import ZArith Lia Ascii.

Local Open Scope string_scope.
Local Open Scope list_scope.
Local Open Scope Z_scope.

(** ** JavaScript helpers *)

(** Truthiness of a string: only the empty string is falsy. *)
Definition truthy (s : string) : bool :=
  match s with EmptyString => false | _ => true end.

(** Truthiness of [number | undefined]: [undefined] and [0] are falsy. *)
Definition truthy_num (o : option Z) : bool :=
  match o with Some n => negb (n =? 0) | None => false end.

(** ** The rate limiter *)

Record RateEntry := mkRate { count : Z; ts : Z }.

(** [rateLimit(key, limit, windowMs)] with [now = Date.now()].  The entry
    object [cur] is mutated in place by [cur.count++]; the map is its only
    holder, so the mutation is an insert at the same key. *)
Definition rateLimit (now : Z) (key : string) (limit windowMs : Z)
    (rateMap : gmap string RateEntry) : bool * gmap string RateEntry :=
  match rateMap !! key with
  | None => (true, <[key := mkRate 1 now]> rateMap)
  | Some cur =>
      if windowMs <? now - ts cur
      then (true, <[key := mkRate 1 now]> rateMap)
      else if limit <=? count cur
      then (false, rateMap)
      else (true, <[key := mkRate (count cur + 1) (ts cur)]> rateMap)
  end.

(** A run of calls, each with its own key and clock reading, under one
    [limit] and [windowMs]; the answers are returned with their keys. *)
Fixpoint rateLimit_run (limit windowMs : Z) (calls : list (string * Z))
    (rateMap : gmap string RateEntry)
    : list (string * bool) * gmap string RateEntry :=
  match calls with
  | [] => ([], rateMap)
  | (k, now) :: rest =>
      let '(b, rm1) := rateLimit now k limit windowMs rateMap in
      let '(bs, rm2) := rateLimit_run limit windowMs rest rm1 in
      ((k, b) :: bs, rm2)
  end.

(** The answers given to one key, in call order. *)
Definition answers_for (key : string) (res : list (string * bool)) : list bool :=
  map snd (filter (λ kb, kb.1 = key) res).

(** The calls of a run that use [key] all fall inside the window opened at
    [t0]: the test [now - ts > windowMs] of the source is false for them. *)
Definition in_window (key : string) (t0 windowMs : Z) (calls : list (string * Z)) : Prop :=
  Forall (λ c, c.1 = key → c.2 - t0 <= windowMs) calls.

(** The key has no open window at time [t0]: it was never seen, or its
    window started more than [windowMs] before. *)
Definition window_closed (key : string) (t0 windowMs : Z)
    (rateMap : gmap string RateEntry) : Prop :=
  match rateMap !! key with
  | None => True
  | Some cur => windowMs < t0 - ts cur
  end.

(** How many calls of a run use [key]. *)
Definition count_calls (key : string) (calls : list (string * Z)) : nat :=
  length (filter (λ c, c.1 = key) calls).

(** What a fixed-window counter that admits [n] calls answers to [m] calls. *)
Definition first_n_true (n : Z) (m : nat) : list bool :=
  map (λ i, Z.of_nat i <? n) (seq 0 m).


(** ** JavaScript [Map] and [Set] with insertion order *)

(** [Map<string, V>] as the list of its entries in insertion order. *)
Definition jsmap (V : Type) := list (string * V).

Fixpoint jsmap_get {V} (k : string) (m : jsmap V) : option V :=
  match m with
  | [] => None
  | (k', v) :: rest => if bool_decide (k' = k) then Some v else jsmap_get k rest
  end.

(** [m.set(k, v)]: an existing key keeps its position, a new key goes last. *)
Fixpoint jsmap_set {V} (k : string) (v : V) (m : jsmap V) : jsmap V :=
  match m with
  | [] => [(k, v)]
  | (k', v') :: rest =>
      if bool_decide (k' = k) then (k, v) :: rest else (k', v') :: jsmap_set k v rest
  end.

Definition jsmap_delete {V} (k : string) (m : jsmap V) : jsmap V :=
  filter (λ kv, kv.1 ≠ k) m.

Definition jsmap_values {V} (m : jsmap V) : list V := map snd m.

(** [Set<string>] as the list of its elements in insertion order. *)
Definition jsset_add (x : string) (l : list string) : list string :=
  if bool_decide (x ∈ l) then l else l ++ [x].

Definition jsset_delete (x : string) (l : list string) : list string :=
  filter (λ y, y ≠ x) l.

(** [Array.from(new Set(arr))]: duplicates dropped, first occurrences kept. *)
Definition jsset_of_array (arr : list string) : list string :=
  fold_left (λ acc x, jsset_add x acc) arr [].

(** ** Data of the server *)

(** [type User = { id; name; userId? }] *)
Record User := mkUser {
  user_id : string;
  user_name : string;
  user_userId : option string }.

Inductive CallType := Audio | Video.

(** [type CallState = { room; type; participants; startedAt; initiator }] *)
Record CallState := mkCall {
  call_room : option string;
  call_type : CallType;
  call_participants : list string;
  call_startedAt : Z;
  call_initiator : string }.

(** An element of [__callLogs]. *)
Record CallLog := mkLog {
  log_callId : string;
  log_room : option string;
  log_type : CallType;
  log_startedAt : Z;
  log_endedAt : option Z;
  log_initiator : string;
  log_participants : list string }.

(** An element of [inMemMessages]. *)
Record StoredMessage := mkStored {
  stored_name : string;
  stored_text : string;
  stored_ts : Z;
  stored_room : option string }.

(** The state the handlers share.  [sockets] and [rooms] are socket.io's
    own: the connected sockets of the namespace and the adapter's room
    memberships as (room, socket id) pairs in join order, so that the
    members of one room read in the order of the adapter's [Set].
    [redis] tells whether [REDIS_URL] was set. *)
Record Server := mkServer {
  redis : bool;
  sockets : list string;
  rooms : list (string * string);
  users : jsmap User;
  userRooms : gmap string (option string);
  inMemMessages : list StoredMessage;
  onlineUserIds : gset string;
  activeCalls : gmap string CallState;
  callLogs : list CallLog }.

Definition set_sockets (x : list string) (s : Server) : Server :=
  mkServer (redis s) x (rooms s) (users s) (userRooms s) (inMemMessages s)
           (onlineUserIds s) (activeCalls s) (callLogs s).
Definition set_rooms (x : list (string * string)) (s : Server) : Server :=
  mkServer (redis s) (sockets s) x (users s) (userRooms s) (inMemMessages s)
           (onlineUserIds s) (activeCalls s) (callLogs s).
Definition set_users (x : jsmap User) (s : Server) : Server :=
  mkServer (redis s) (sockets s) (rooms s) x (userRooms s) (inMemMessages s)
           (onlineUserIds s) (activeCalls s) (callLogs s).
Definition set_userRooms (x : gmap string (option string)) (s : Server) : Server :=
  mkServer (redis s) (sockets s) (rooms s) (users s) x (inMemMessages s)
           (onlineUserIds s) (activeCalls s) (callLogs s).
Definition set_inMemMessages (x : list StoredMessage) (s : Server) : Server :=
  mkServer (redis s) (sockets s) (rooms s) (users s) (userRooms s) x
           (onlineUserIds s) (activeCalls s) (callLogs s).
Definition set_onlineUserIds (x : gset string) (s : Server) : Server :=
  mkServer (redis s) (sockets s) (rooms s) (users s) (userRooms s) (inMemMessages s)
           x (activeCalls s) (callLogs s).
Definition set_activeCalls (x : gmap string CallState) (s : Server) : Server :=
  mkServer (redis s) (sockets s) (rooms s) (users s) (userRooms s) (inMemMessages s)
           (onlineUserIds s) x (callLogs s).
Definition set_callLogs (x : list CallLog) (s : Server) : Server :=
  mkServer (redis s) (sockets s) (rooms s) (users s) (userRooms s) (inMemMessages s)
           (onlineUserIds s) (activeCalls s) x.

(** The server at start-up, before any connection. *)
Definition initial (with_redis : bool) : Server :=
  mkServer with_redis [] [] [] ∅ [] ∅ ∅ [].

(** ** socket.io: rooms and emit targets *)

(** [socket.join(room)] and [socket.leave(room)] on the adapter. *)
Definition socket_join (room sid : string) (rs : list (string * string)) :=
  if bool_decide ((room, sid) ∈ rs) then rs else rs ++ [(room, sid)].

Definition socket_leave (room sid : string) (rs : list (string * string)) :=
  filter (λ m, m ≠ (room, sid)) rs.

(** [Array.from(io.sockets.adapter.rooms.get(room) || [])] *)
Definition room_members (room : string) (rs : list (string * string)) : list string :=
  map snd (filter (λ m, m.1 = room) rs).

(** The rooms a socket is in, apart from the room named after its own id,
    which socket.io gives every socket on connection. *)
Definition rooms_of (sid : string) (rs : list (string * string)) : list string :=
  map fst (filter (λ m, m.2 = sid ∧ m.1 ≠ sid) rs).

Inductive Target :=
  | ToAll                           (* io.emit *)
  | ToRoom (room : string)          (* io.to(room).emit *)
  | Broadcast (sender : string)     (* socket.broadcast.emit *)
  | ToRoomFrom (sender room : string) (* socket.to(room).emit *).

(** The sockets an emit reaches, in the state it is performed in. *)
Definition recipients (s : Server) (t : Target) : list string :=
  match t with
  | ToAll => sockets s
  | ToRoom r => room_members r (rooms s)
  | Broadcast sender => filter (λ x, x ≠ sender) (sockets s)
  | ToRoomFrom sender r => filter (λ x, x ≠ sender) (room_members r (rooms s))
  end.

(** Fields the server forwards without reading them ([sdp], [candidate]). *)
Definition Json := string.

(** The payload of an emitted event, one constructor per shape. *)
Inductive Payload :=
  | PUserJoin (id name : string)
  | PUserLeave (id name : string)
  | PUsers (us : list User)
  | PRoomJoin (id : string) (name : option string) (room : string)
  | PRoomLeave (id : string) (name : option string) (room : string)
  | PUsersInRoom (us : list User)
  | PMessage (id name text : string) (ts : Z) (room : option string)
  | POffer (from : string) (sdp : Json) (media : option CallType) (callId : option string)
  | PAnswer (from : string) (sdp : Json) (callId : option string)
  | PIce (from : string) (candidate : Json) (callId : option string)
  | PFrom (from : string)
  | PUpgrade (from : string) (kind : CallType)
  | PUpgradeResponse (from : string) (accepted : bool) (kind : CallType)
  | PCallInvite (callId : string) (type : CallType) (from : string) (fromName : option string)
  | PCallParticipants (callId : string) (participants : list string)
  | PCallEndAll (callId : string).

Inductive Effect :=
  | Emit (target : Target) (event : string) (payload : Payload)
  | RedisSadd (key member : string)
  | RedisSrem (key member : string).

(** ** The socket.io handlers *)

(** [o || null] for a room name: the empty string counts as no room. *)
Definition nonempty (o : option string) : option string :=
  match o with
  | Some r => if truthy r then Some r else None
  | None => None
  end.

(** [userRooms.get(socket.id) || null] *)
Definition prev_room (sid : string) (s : Server) : option string :=
  match userRooms s !! sid with
  | Some o => nonempty o
  | None => None
  end.

(** [sockets.map((id) => users.get(id)).filter(Boolean)] over a room. *)
Definition usersInRoom (room : string) (s : Server) : list User :=
  omap (λ id, jsmap_get id (users s)) (room_members room (rooms s)).

(** [io.on('connection', ...)]: socket.io adds the socket to the namespace
    and to the room named after its id; the handler itself only registers
    the listeners below. *)
Definition on_connection (sid : string) (s : Server) : Server * list Effect :=
  (set_rooms (socket_join sid sid (rooms s)) (set_sockets (jsset_add sid (sockets s)) s), []).

(** The payload of ['join']: a bare name, or an object with optional
    [name] and [userId]. *)
Inductive JoinPayload :=
  | JoinName (name : string)
  | JoinObject (name : option string) (userId : option string).

Definition join_name (p : JoinPayload) : string :=
  match p with
  | JoinName n => n
  | JoinObject n _ => default "Anonymous" (nonempty n)
  end.

Definition join_userId (p : JoinPayload) : option string :=
  match p with
  | JoinName _ => None
  | JoinObject _ u => u
  end.

Definition on_join (sid : string) (p : JoinPayload) (s : Server) : Server * list Effect :=
  let name := join_name p in
  let userId := join_userId p in
  let s1 := set_users (jsmap_set sid (mkUser sid name userId) (users s)) s in
  let s2 := set_userRooms (<[sid := None]> (userRooms s1)) s1 in
  let s3 := match nonempty userId with
            | Some u => set_onlineUserIds ({[u]} ∪ onlineUserIds s2) s2
            | None => s2
            end in
  (s3,
   [Emit (Broadcast sid) "user:join" (PUserJoin sid name);
    Emit ToAll "users" (PUsers (jsmap_values (users s3)))]
   ++ (if redis s3
       then RedisSadd "presence:global" sid ::
            match nonempty userId with
            | Some u => [RedisSadd "presence:users" u]
            | None => []
            end
       else [])).

Definition on_joinRoom (sid : string) (room : option string) (s : Server)
    : Server * list Effect :=
  let s1 := match prev_room sid s with
            | Some prev => set_rooms (socket_leave prev sid (rooms s)) s
            | None => s
            end in
  match nonempty room with
  | Some r =>
      let s2 := set_rooms (socket_join r sid (rooms s1)) s1 in
      let s3 := set_userRooms (<[sid := Some r]> (userRooms s2)) s2 in
      let user := jsmap_get sid (users s3) in
      (s3,
       [Emit (ToRoom r) "room:join" (PRoomJoin sid (user_name <$> user) r);
        Emit (ToRoom r) "usersInRoom" (PUsersInRoom (usersInRoom r s3))]
       ++ (if redis s3 then [RedisSadd ("presence:" +:+ r) sid] else []))
  | None => (set_userRooms (<[sid := None]> (userRooms s1)) s1, [])
  end.

Definition on_leaveRoom (sid : string) (s : Server) : Server * list Effect :=
  match prev_room sid s with
  | Some prev =>
      let s1 := set_rooms (socket_leave prev sid (rooms s)) s in
      let s2 := set_userRooms (<[sid := None]> (userRooms s1)) s1 in
      let user := jsmap_get sid (users s2) in
      (s2,
       [Emit (ToRoom prev) "room:leave" (PRoomLeave sid (user_name <$> user) prev);
        Emit (ToRoom prev) "usersInRoom" (PUsersInRoom (usersInRoom prev s2))]
       ++ (if redis s2 then [RedisSrem ("presence:" +:+ prev) sid] else []))
  | None => (s, [])
  end.

(** What the persistence attempt of a chat message meets:
    [isMongoConnected()] is false (the in-memory array is used), or it is
    true and [Message.create] resolves, or it is true and [Message.create]
    throws (the [catch] logs the error). *)
Inductive StoreOutcome := MongoOff | MongoCreated | MongoThrew.

(** [msg.room ?? userRooms.get(socket.id) ?? null] *)
Definition message_room (sid : string) (room : option string) (s : Server)
    : option string :=
  match room with
  | Some r => Some r
  | None => match userRooms s !! sid with
            | Some o => o
            | None => None
            end
  end.

(** [if (a.length > 500) a.splice(0, a.length - 500)] *)
Definition cap_last {A} (n : nat) (l : list A) : list A :=
  if (n <? length l)%nat then drop (length l - n) l else l.

(** [users.get(socket.id) || { id: socket.id, name: 'Anonymous' }] *)
Definition sender_name (sid : string) (s : Server) : string :=
  match jsmap_get sid (users s) with
  | Some u => user_name u
  | None => "Anonymous"
  end.

Definition on_message (sid text : string) (room : option string)
    (store : StoreOutcome) (now : Z) (s : Server) : Server * list Effect :=
  let name := sender_name sid s in
  let proom := message_room sid room s in
  let s1 := match store with
            | MongoOff =>
                set_inMemMessages
                  (cap_last 500 (inMemMessages s ++ [mkStored name text now proom])) s
            | MongoCreated | MongoThrew => s
            end in
  (s1,
   [Emit (match nonempty proom with Some r => ToRoom r | None => ToAll end)
         "message" (PMessage sid name text now proom)]).

(** ['disconnect'] runs after socket.io has taken the socket out of the
    namespace and out of every room. *)
Definition on_disconnect (sid : string) (s : Server) : Server * list Effect :=
  let s0 := set_rooms (filter (λ m, m.2 ≠ sid) (rooms s))
              (set_sockets (jsset_delete sid (sockets s)) s) in
  let user := jsmap_get sid (users s0) in
  let s1 := set_users (jsmap_delete sid (users s0)) s0 in
  let uid := nonempty (user ≫= user_userId) in
  let room := match userRooms s1 !! sid with Some o => nonempty o | None => None end in
  let s2 := match uid with
            | Some u => set_onlineUserIds (onlineUserIds s1 ∖ {[u]}) s1
            | None => s1
            end in
  (s2,
   match user with
   | Some u => [Emit (Broadcast sid) "user:leave" (PUserLeave sid (user_name u))]
   | None => []
   end
   ++ [Emit ToAll "users" (PUsers (jsmap_values (users s1)))]
   ++ (if redis s1
       then [RedisSrem "presence:global" sid]
            ++ match room with Some r => [RedisSrem ("presence:" +:+ r) sid] | None => [] end
            ++ [RedisSrem "typing:global" sid]
            ++ match room with Some r => [RedisSrem ("typing:" +:+ r) sid] | None => [] end
            ++ match uid with Some u => [RedisSrem "presence:users" u] | None => [] end
       else [])).

(** *** Signalling relays: [if (to) io.to(to).emit(...)] *)

Definition relay (to : option string) (event : string) (p : Payload) (s : Server)
    : Server * list Effect :=
  match nonempty to with
  | Some t => (s, [Emit (ToRoom t) event p])
  | None => (s, [])
  end.

Definition on_webrtc_offer (sid : string) (to : option string) (sdp : Json)
    (media : option CallType) (callId : option string) :=
  relay to "webrtc:offer" (POffer sid sdp media callId).
Definition on_webrtc_answer (sid : string) (to : option string) (sdp : Json)
    (callId : option string) :=
  relay to "webrtc:answer" (PAnswer sid sdp callId).
Definition on_webrtc_ice (sid : string) (to : option string) (candidate : Json)
    (callId : option string) :=
  relay to "webrtc:ice" (PIce sid candidate callId).
Definition on_webrtc_end (sid : string) (to : option string) :=
  relay to "webrtc:end" (PFrom sid).
Definition on_call_busy (sid : string) (to : option string) :=
  relay to "call:busy" (PFrom sid).
Definition on_call_upgrade (sid : string) (to : option string) (kind : CallType) :=
  relay to "call:upgrade" (PUpgrade sid kind).
Definition on_call_upgrade_response (sid : string) (to : option string)
    (accepted : bool) (kind : CallType) :=
  relay to "call:upgrade:response" (PUpgradeResponse sid accepted kind).

(** *** Group call orchestration *)

(** [arr.find((l) => l.callId === callId)] *)
Definition find_log (callId : string) (logs : list CallLog) : option CallLog :=
  find (λ l, bool_decide (log_callId l = callId)) logs.

(** The object [find] returns is mutated in place: the first entry with
    the call id is replaced by its update. *)
Fixpoint update_log (callId : string) (f : CallLog → CallLog) (logs : list CallLog)
    : list CallLog :=
  match logs with
  | [] => []
  | l :: rest =>
      if bool_decide (log_callId l = callId) then f l :: rest
      else l :: update_log callId f rest
  end.

Definition set_log_participants (ps : list string) (l : CallLog) : CallLog :=
  mkLog (log_callId l) (log_room l) (log_type l) (log_startedAt l) (log_endedAt l)
        (log_initiator l) ps.

Definition set_log_endedAt (t : Z) (l : CallLog) : CallLog :=
  mkLog (log_callId l) (log_room l) (log_type l) (log_startedAt l) (Some t)
        (log_initiator l) (log_participants l).

Definition set_call_participants (ps : list string) (c : CallState) : CallState :=
  mkCall (call_room c) (call_type c) ps (call_startedAt c) (call_initiator c).

(** [if (log && !log.endedAt) log.endedAt = Date.now()], on the entry
    found and on the log. *)
Definition finalized (now : Z) (l : CallLog) : CallLog :=
  if truthy_num (log_endedAt l) then l else set_log_endedAt now l.

Definition finalize (callId : string) (now : Z) (logs : list CallLog) : list CallLog :=
  update_log callId (finalized now) logs.

(** [call:invite].  The handler reads the clock twice: [now] for the
    session's [startedAt], [later] for the log entry's. *)
Definition on_call_invite (sid callId : string) (room : option string)
    (type : CallType) (to : option string) (now later : Z) (s : Server)
    : Server * list Effect :=
  let s1 := match activeCalls s !! callId with
            | Some _ => s
            | None =>
                set_callLogs
                  (callLogs s ++ [mkLog callId room type later None sid []])
                  (set_activeCalls
                     (<[callId := mkCall room type [] now sid]> (activeCalls s)) s)
            end in
  let user := jsmap_get sid (users s1) in
  let p := PCallInvite callId type sid (user_name <$> user) in
  (s1,
   match nonempty to with
   | Some t => [Emit (ToRoomFrom sid t) "call:invite" p]
   | None =>
       match nonempty room with
       | Some r => [Emit (ToRoomFrom sid r) "call:invite" p]
       | None => [Emit (Broadcast sid) "call:invite" p]
       end
   end).

(** The scope a call's notifications go to: its room, or everyone. *)
Definition call_scope (st : CallState) : Target :=
  match nonempty (call_room st) with
  | Some r => ToRoom r
  | None => ToAll
  end.

Definition on_call_join (sid callId : string) (s : Server) : Server * list Effect :=
  match activeCalls s !! callId with
  | None => (s, [])
  | Some st =>
      let st1 := set_call_participants (jsset_add sid (call_participants st)) st in
      let logs :=
        update_log callId
          (λ l, set_log_participants
                  (jsset_add sid (jsset_of_array (log_participants l))) l)
          (callLogs s) in
      (set_callLogs logs (set_activeCalls (<[callId := st1]> (activeCalls s)) s),
       [Emit (call_scope st1) "call:participants"
             (PCallParticipants callId (call_participants st1))])
  end.

Definition on_call_leave (sid callId : string) (now : Z) (s : Server)
    : Server * list Effect :=
  match activeCalls s !! callId with
  | None => (s, [])
  | Some st =>
      let st1 := set_call_participants (jsset_delete sid (call_participants st)) st in
      let s1 := set_activeCalls (<[callId := st1]> (activeCalls s)) s in
      let s2 := match call_participants st1 with
                | [] => set_activeCalls (delete callId (activeCalls s1))
                          (set_callLogs (finalize callId now (callLogs s1)) s1)
                | _ :: _ => s1
                end in
      (s2,
       [Emit (call_scope st1) "call:participants"
             (PCallParticipants callId (call_participants st1))])
  end.

Definition on_call_endAll (sid callId : string) (now : Z) (s : Server)
    : Server * list Effect :=
  match activeCalls s !! callId with
  | None => (s, [])
  | Some st =>
      (set_activeCalls (delete callId (activeCalls s))
         (set_callLogs (finalize callId now (callLogs s)) s),
       map (λ pid, Emit (ToRoom pid) "webrtc:end" (PFrom sid)) (call_participants st)
       ++ [Emit (call_scope st) "call:endAll" (PCallEndAll callId)])
  end.

(** ** The server as a transition system *)

Inductive Event :=
  | Connection
  | Join (p : JoinPayload)
  | JoinRoom (room : option string)
  | LeaveRoom
  | Message (text : string) (room : option string) (store : StoreOutcome)
  | Disconnect
  | WebrtcOffer (to : option string) (sdp : Json) (media : option CallType)
                (callId : option string)
  | WebrtcAnswer (to : option string) (sdp : Json) (callId : option string)
  | WebrtcIce (to : option string) (candidate : Json) (callId : option string)
  | WebrtcEnd (to : option string)
  | CallBusy (to : option string)
  | CallUpgrade (to : option string) (kind : CallType)
  | CallUpgradeResponse (to : option string) (accepted : bool) (kind : CallType)
  | CallInvite (callId : string) (room : option string) (type : CallType)
               (to : option string)
  | CallJoin (callId : string)
  | CallLeave (callId : string)
  | CallEndAll (callId : string).

(** One event as the server receives it: the socket it arrives on and the
    clock readings its handler takes ([at2] is the second reading of
    [call:invite]). *)
Record Input := mkInput {
  from : string;
  at1 : Z;
  at2 : Z;
  event : Event }.

Definition step (i : Input) (s : Server) : Server * list Effect :=
  let sid := from i in
  match event i with
  | Connection => on_connection sid s
  | Join p => on_join sid p s
  | JoinRoom room => on_joinRoom sid room s
  | LeaveRoom => on_leaveRoom sid s
  | Message text room store => on_message sid text room store (at1 i) s
  | Disconnect => on_disconnect sid s
  | WebrtcOffer to sdp media callId => on_webrtc_offer sid to sdp media callId s
  | WebrtcAnswer to sdp callId => on_webrtc_answer sid to sdp callId s
  | WebrtcIce to candidate callId => on_webrtc_ice sid to candidate callId s
  | WebrtcEnd to => on_webrtc_end sid to s
  | CallBusy to => on_call_busy sid to s
  | CallUpgrade to kind => on_call_upgrade sid to kind s
  | CallUpgradeResponse to accepted kind =>
      on_call_upgrade_response sid to accepted kind s
  | CallInvite callId room type to =>
      on_call_invite sid callId room type to (at1 i) (at2 i) s
  | CallJoin callId => on_call_join sid callId s
  | CallLeave callId => on_call_leave sid callId (at1 i) s
  | CallEndAll callId => on_call_endAll sid callId (at1 i) s
  end.

(** The state after a sequence of events, and everything emitted on the way. *)
Fixpoint run (inputs : list Input) (s : Server) : Server * list Effect :=
  match inputs with
  | [] => (s, [])
  | i :: rest =>
      let '(s1, out1) := step i s in
      let '(s2, out2) := run rest s1 in
      (s2, out1 ++ out2)
  end.

(** The sockets that receive a given event among a list of effects
    performed in state [s]. *)
Definition reached_by (s : Server) (ev : string) (out : list Effect) : list string :=
  concat (map (λ e, match e with
                    | Emit t ev' _ => if bool_decide (ev' = ev) then recipients s t else []
                    | _ => []
                    end) out).

(** ** The HTTP surface: token check and the call-log route *)

(** [type JwtClaims = { sub; exp }] *)
Record JwtClaims := mkClaims { sub : string; exp : Z }.

(** [s.split(sep)] for a one-character separator; never empty. *)
Fixpoint split_on (sep : ascii) (s : string) : list string :=
  match s with
  | EmptyString => [EmptyString]
  | String c rest =>
      if Ascii.eqb c sep then EmptyString :: split_on sep rest
      else match split_on sep rest with
           | p :: ps => String c p :: ps
           | [] => [String c EmptyString]
           end
  end.

(** [toLowerCase] on the characters a header value can hold (Latin-1):
    A-Z and the accented capitals move up by 32. *)
Definition lower_char (c : ascii) : ascii :=
  let n := nat_of_ascii c in
  if ((65 <=? n) && (n <=? 90) || (192 <=? n) && (n <=? 222) && negb (n =? 215))%nat
  then ascii_of_nat (n + 32) else c.

Fixpoint toLowerCase (s : string) : string :=
  match s with
  | EmptyString => EmptyString
  | String c rest => String (lower_char c) (toLowerCase rest)
  end.

(** [verifyJwt(bearer)].  [verify token] stands for the round trip to the
    auth service: [Some claims] when it answers 2xx with the claims, [None]
    when it answers otherwise or the request throws. *)
Definition verifyJwt (verify : string → option JwtClaims) (bearer : option string)
    : option JwtClaims :=
  match nonempty bearer with
  | None => None
  | Some b =>
      let parts := split_on " "%char b in
      let scheme := default "" (nonempty (parts !! 0%nat)) in
      match nonempty (parts !! 1%nat) with
      | Some token =>
          if bool_decide (toLowerCase scheme = "bearer") then verify token else None
      | None => None
      end
  end.

Record Request := mkRequest {
  authorization : option string;   (* req.headers.authorization *)
  req_user : option JwtClaims }.   (* (req as any).user *)

Inductive Body :=
  | BError (error : string)        (* { ok: false, error } *)
  | BLogs (logs : list CallLog)    (* { logs } *).

Record Response := mkResponse { status : Z; body : Body }.

(** [requireAuth()]: the middleware answers 401 itself or stores the claims
    on the request and calls [next]. *)
Definition requireAuth (verify : string → option JwtClaims)
    (next : Request → Response) (req : Request) : Response :=
  match verifyJwt verify (authorization req) with
  | None => mkResponse 401 (BError "unauthorized")
  | Some claims => next (mkRequest (authorization req) (Some claims))
  end.

(** [app.get('/calls', (req, res) => res.json({ logs }))]: registered
    without [requireAuth()].  [__callLogs] that was never created and the
    empty array both read as no entries. *)
Definition get_calls (s : Server) (req : Request) : Response :=
  mkResponse 200 (BLogs (callLogs s)).

Inductive Method := GET | POST | DELETE.

(** The routes of the Express app that serve the call log or stand behind
    [requireAuth()]:
    [app.get('/calls', handler)],
    [app.get('/contacts', requireAuth(), handler)],
    [app.post('/contacts', requireAuth(), handler)],
    [app.delete('/contacts', requireAuth(), handler)].
    [contacts m] is the handler of the contacts route of method [m], which
    Express calls as [next]; [None] is any other method and path. *)
Definition app (verify : string → option JwtClaims)
    (contacts : Method → Request → Response) (s : Server)
    (m : Method) (path : string) (req : Request) : option Response :=
  if bool_decide (path = "/calls") then
    match m with
    | GET => Some (get_calls s req)
    | _ => None
    end
  else if bool_decide (path = "/contacts") then
    Some (requireAuth verify (contacts m) req)
  else None.

(** ** Vocabulary of the statements *)

(** The two events of the room tracker. *)
Definition is_room_op (e : Event) : bool :=
  match e with
  | JoinRoom _ | LeaveRoom => true
  | _ => false
  end.

(** The events by which a socket arrives: it connects, it registers. *)
Definition is_setup (e : Event) : bool :=
  match e with
  | Connection | Join _ => true
  | _ => false
  end.

(** No socket is in a room besides its own, and [userRooms] records none. *)
Definition no_rooms (s : Server) : Prop :=
  ∀ sid, rooms_of sid (rooms s) = [] ∧ prev_room sid s = None.

(** Sockets connecting one after the other. *)
Definition connections (sids : list string) : list Input :=
  map (λ sid, mkInput sid 0 0 Connection) sids.

(** The room [userRooms] records for a socket, as the list of rooms the
    adapter should then hold it in besides its own. *)
Definition tracked_room (sid : string) (s : Server) : list string :=
  match prev_room sid s with
  | Some r => if bool_decide (r = sid) then [] else [r]
  | None => []
  end.

(** The adapter and [userRooms] agree on every socket. *)
Definition rooms_agree (s : Server) : Prop :=
  ∀ sid, rooms_of sid (rooms s) = tracked_room sid s.

(** The events that reach socket [x] among effects performed in state [s]. *)
Definition events_reaching (s : Server) (x : string) (out : list Effect)
    : list string :=
  omap (λ e, match e with
             | Emit t ev _ => if bool_decide (x ∈ recipients s t) then Some ev else None
             | _ => None
             end) out.

(** Whom a [call:invite] is sent to: the addressee, or the room, or everyone
    else. *)
Definition invite_audience (sid : string) (room to : option string) : Target :=
  match nonempty to with
  | Some t => ToRoomFrom sid t
  | None => match nonempty room with
            | Some r => ToRoomFrom sid r
            | None => Broadcast sid
            end
  end.

(** A socket is a participant of some active call session. *)
Definition in_call (x : string) (s : Server) : Prop :=
  ∃ callId st, activeCalls s !! callId = Some st ∧ x ∈ call_participants st.

(** The two events that can end the session [callId]. *)
Definition ends_call (callId : string) (e : Event) : bool :=
  match e with
  | CallLeave c | CallEndAll c => bool_decide (c = callId)
  | _ => false
  end.

Definition is_invite (e : Event) : bool :=
  match e with
  | CallInvite _ _ _ _ => true
  | _ => false
  end.

(** The call ids a sequence of events invites to, in order. *)
Definition invite_ids (inputs : list Input) : list string :=
  omap (λ i, match event i with
             | CallInvite c _ _ _ => Some c
             | _ => None
             end) inputs.

(** The log holds, at index [n], an entry of [callId] with no end time. *)
Definition open_at (n : nat) (callId : string) (logs : list CallLog) : Prop :=
  ∃ l, logs !! n = Some l ∧ log_callId l = callId ∧ log_endedAt l = None.

(** [n] invites from one socket, one per millisecond, to the call ids
    ["0"], ["1"], ... *)
Definition numbered_invites (sid : string) (n : nat) : list Input :=
  map (λ k : nat, mkInput sid (Z.of_nat k) (Z.of_nat k)
                    (CallInvite (pretty k) None Audio None)) (seq 0 n).

(** The session [callId] is active and its log entry at index [n] is open. *)
Definition ringing (n : nat) (callId : string) (s : Server) : Prop :=
  is_Some (activeCalls s !! callId) ∧ open_at n callId (callLogs s).

(** ** Vocabulary of the further properties *)

(** The registry lists every socket once, under its own id. *)
Definition users_wf (us : jsmap User) : Prop :=
  NoDup (map fst us) ∧ Forall (λ kv, user_id kv.2 = kv.1) us.

(** The events of socket [sid] that change its entry of [users]. *)
Definition registers (sid : string) (i : Input) : bool :=
  bool_decide (from i = sid)
  && match event i with
     | Join _ | Disconnect => true
     | _ => false
     end.

(** No participant list, of a session or of a log entry, names a socket twice. *)
Definition participants_wf (s : Server) : Prop :=
  (∀ c st, activeCalls s !! c = Some st → NoDup (call_participants st))
  ∧ Forall (λ l, NoDup (log_participants l)) (callLogs s).

(** [l'] is a later version of the log entry [l]: the fields written at
    creation are the same, an end time once set (and not 0) is the same,
    and no participant is gone. *)
Definition log_extends (l l' : CallLog) : Prop :=
  log_callId l' = log_callId l
  ∧ log_room l' = log_room l
  ∧ log_type l' = log_type l
  ∧ log_startedAt l' = log_startedAt l
  ∧ log_initiator l' = log_initiator l
  ∧ (truthy_num (log_endedAt l) = true → log_endedAt l' = log_endedAt l)
  ∧ log_participants l ⊆ log_participants l'.

(** Two versions of a session that differ in their participants at most. *)
Definition same_session (st st' : CallState) : Prop :=
  call_room st' = call_room st
  ∧ call_type st' = call_type st
  ∧ call_startedAt st' = call_startedAt st
  ∧ call_initiator st' = call_initiator st.

(** The names of the events a list of effects emits, in order. *)
Definition emitted_events (out : list Effect) : list string :=
  omap (λ e, match e with Emit _ ev _ => Some ev | _ => None end) out.

(** The log holds an entry of the session: same call id, room, type and
    initiator, and no end time. *)
Definition logged_open (c : string) (st : CallState) (logs : list CallLog) : Prop :=
  ∃ n l, logs !! n = Some l
         ∧ log_callId l = c ∧ log_endedAt l = None
         ∧ log_room l = call_room st ∧ log_type l = call_type st
         ∧ log_initiator l = call_initiator st.

(** Every active session has its open entry in the log. *)
Definition sessions_logged (s : Server) : Prop :=
  ∀ c st, activeCalls s !! c = Some st → logged_open c st (callLogs s).

(** The log holds an entry of [c] at index [k] and the entry [e] at the
    later index [n]. *)
Definition shadowed (k n : nat) (c : string) (e : CallLog) (logs : list CallLog) : Prop :=
  (log_callId <$> logs !! k) = Some c ∧ logs !! n = Some e.

From stdpp Require sorting.
From Stdlib Require Import Sorted.

(** ** The contacts routes

    Strings hold characters below 256, so that a string's length and the
    order of two strings are those JavaScript computes on UTF-16 code
    units. *)

(** A field of a JSON body as the handlers test it: a string, another
    value that is truthy, or one that is falsy ([undefined], [null],
    [false], [0]). *)
Inductive JsVal :=
  | JString (s : string)
  | JTruthy
  | JFalsy.

Global Instance JsVal_eq_dec : EqDecision JsVal.
Proof. solve_decision. Defined.

Definition js_truthy (v : JsVal) : bool :=
  match v with
  | JString s => truthy s
  | JTruthy => true
  | JFalsy => false
  end.

(** [typeof v === 'string'] *)
Definition js_is_string (v : JsVal) : bool :=
  match v with
  | JString _ => true
  | _ => false
  end.

(** [v || ''] inside a template, for a value that is a string or falsy. *)
Definition js_text (v : JsVal) : string :=
  match v with
  | JString s => s
  | _ => ""
  end.

(** The module-level stores of the HTTP routes: [inMemContacts], owner id
    to the set of keys ["name|contactId"], and [rateMap]. *)
Record Stores := mkStores {
  inMemContacts : gmap string (list string);
  rateMap : gmap string RateEntry }.

(** An element of the [contacts] array of a reply. *)
Record Contact := mkContact {
  contact_name : string;
  contact_id : string;
  contact_online : bool }.

Inductive ContactsBody :=
  | CbOk                              (* { ok: true } *)
  | CbContacts (cs : list Contact)    (* { ok: true, contacts } *)
  | CbError (error : string)          (* { ok: false, error } *).

Record ContactsReply := mkReply { reply_status : Z; reply_body : ContactsBody }.

(** What the handler of [GET /contacts] meets at the database:
    [isMongoConnected()] is false, or the query resolves with documents
    (their [name] and [contactId], each possibly absent) and, when Redis is
    on, [smembers('presence:users')] resolves with [members]. *)
Inductive MongoRead :=
  | ReadOff
  | ReadDocs (docs : list (option string * option string)) (members : list string).

(** What a write meets: [isMongoConnected()] is false, or the operation
    resolves, or it throws an error with the given [message]. *)
Inductive MongoWrite :=
  | WriteOff
  | WriteDone
  | WriteThrew (message : option string).

(** The order of [Array.prototype.sort()] on strings. *)
Definition string_le (a b : string) : Prop := String.leb a b = true.

Global Instance string_le_dec : RelDecision string_le.
Proof. intros a b. unfold string_le. apply _. Defined.

(** [Array.from(set).sort()] *)
Definition sort_strings (l : list string) : list string := sorting.merge_sort string_le l.

(** [const [name, contactId = ''] = key.split('|')], with the presence of
    the contact id. *)
Definition decode_contact (s : Server) (key : string) : Contact :=
  let parts := split_on "|"%char key in
  let name := default "" (parts !! 0%nat) in
  let contactId := default "" (parts !! 1%nat) in
  mkContact name contactId
            (if truthy contactId then bool_decide (contactId ∈ onlineUserIds s) else false).

(** The key a contact is stored under: [`${name || ''}|${contactId || ''}`]. *)
Definition contact_key (name contactId : string) : string :=
  name +:+ "|" +:+ contactId.

(** [rateLimit(key)] with the default limit and window, on the stores. *)
Definition rate_limited (now : Z) (key : string) (st : Stores) : bool * Stores :=
  let '(ok, rm) := rateLimit now key 60 60000 (rateMap st) in
  (ok, mkStores (inMemContacts st) rm).

(** The handler of [GET /contacts], behind [requireAuth()]: [claims] is
    [req.user], [q_ownerId] the query parameter. *)
Definition contacts_get (claims : JwtClaims) (q_ownerId : option string)
    (mongo : MongoRead) (now : Z) (s : Server) (st : Stores)
    : ContactsReply * Stores :=
  let ownerId := default "" (nonempty q_ownerId) in
  let effectiveOwner := if truthy ownerId then ownerId else sub claims in
  if truthy ownerId && negb (bool_decide (ownerId = sub claims))
  then (mkReply 403 (CbError "forbidden_owner_mismatch"), st)
  else if negb (truthy effectiveOwner)
  then (mkReply 400 (CbError "ownerId required"), st)
  else
    let '(ok, st1) := rate_limited now ("get:" +:+ effectiveOwner) st in
    if negb ok then (mkReply 429 (CbError "rate_limited"), st1)
    else match mongo with
         | ReadDocs docs members =>
             let onlineIds := if redis s then members else elements (onlineUserIds s) in
             (mkReply 200
                (CbContacts
                   (map (λ d, let n := default "" (nonempty d.1) in
                              let c := default "" (nonempty d.2) in
                              mkContact n c
                                (if truthy c then bool_decide (c ∈ onlineIds) else false))
                        docs)),
              st1)
         | ReadOff =>
             let set := default [] (inMemContacts st1 !! effectiveOwner) in
             (mkReply 200 (CbContacts (map (decode_contact s) (sort_strings set))), st1)
         end.

(** The handler of [POST /contacts]; [ownerId], [name] and [contactId] are
    the fields of the body. *)
Definition contacts_post (claims : JwtClaims) (ownerId name contactId : JsVal)
    (mongo : MongoWrite) (now : Z) (st : Stores) : ContactsReply * Stores :=
  let effectiveOwner :=
    if js_is_string ownerId && js_truthy ownerId then js_text ownerId else sub claims in
  if js_truthy ownerId && negb (bool_decide (ownerId = JString (sub claims)))
  then (mkReply 403 (CbError "forbidden_owner_mismatch"), st)
  else if negb (truthy effectiveOwner)
  then (mkReply 400 (CbError "ownerId required"), st)
  else if js_truthy name && negb (js_is_string name)
          || js_truthy name && (128 <? String.length (js_text name))%nat
  then (mkReply 400 (CbError "invalid name"), st)
  else if js_truthy contactId && negb (js_is_string contactId)
  then (mkReply 400 (CbError "invalid contactId"), st)
  else if negb (js_truthy name) && negb (js_truthy contactId)
  then (mkReply 400 (CbError "name or contactId required"), st)
  else
    let '(ok, st1) := rate_limited now ("post:" +:+ effectiveOwner) st in
    if negb ok then (mkReply 429 (CbError "rate_limited"), st1)
    else match mongo with
         | WriteDone => (mkReply 200 CbOk, st1)
         | WriteThrew message =>
             (mkReply 500 (CbError (default "failed" (nonempty message))), st1)
         | WriteOff =>
             let set := default [] (inMemContacts st1 !! effectiveOwner) in
             let key := contact_key (js_text name) (js_text contactId) in
             (mkReply 200 CbOk,
              mkStores (<[effectiveOwner := jsset_add key set]> (inMemContacts st1))
                       (rateMap st1))
         end.

(** The handler of [DELETE /contacts]; the three query parameters. *)
Definition contacts_delete (claims : JwtClaims) (q_ownerId q_name q_contactId : option string)
    (mongo : MongoWrite) (now : Z) (st : Stores) : ContactsReply * Stores :=
  let ownerId := default "" (nonempty q_ownerId) in
  let name := default "" (nonempty q_name) in
  let contactId := default "" (nonempty q_contactId) in
  let effectiveOwner := if truthy ownerId then ownerId else sub claims in
  if truthy ownerId && negb (bool_decide (ownerId = sub claims))
  then (mkReply 403 (CbError "forbidden_owner_mismatch"), st)
  else if negb (truthy effectiveOwner) || negb (truthy name) && negb (truthy contactId)
  then (mkReply 400 (CbError "ownerId and (name or contactId) required"), st)
  else
    let '(ok, st1) := rate_limited now ("del:" +:+ effectiveOwner) st in
    if negb ok then (mkReply 429 (CbError "rate_limited"), st1)
    else match mongo with
         | WriteDone => (mkReply 200 CbOk, st1)
         | WriteThrew message =>
             (mkReply 500 (CbError (default "failed" (nonempty message))), st1)
         | WriteOff =>
             let set := default [] (inMemContacts st1 !! effectiveOwner) in
             let key := contact_key name contactId in
             (mkReply 200 CbOk,
              mkStores (<[effectiveOwner := jsset_delete key set]> (inMemContacts st1))
                       (rateMap st1))
         end.

(** The character occurs in the string. *)
Fixpoint has_char (c : ascii) (s : string) : bool :=
  match s with
  | EmptyString => false
  | String c' rest => Ascii.eqb c' c || has_char c rest
  end.

(** An auth service that knows one token, ["tok1"] of user ["u1"]. *)
Definition one_token_service (token : string) : option JwtClaims :=
  if bool_decide (token = "tok1") then Some (mkClaims "u1" 99) else None.



(** The stores of a server that has served no request. *)
Definition no_stores : Stores := mkStores ∅ ∅.

(** ** The message history route *)

(** [room ? m.room === room : true], for the query parameter [room]. *)
Definition room_matches (q_room : option string) (m : StoredMessage) : bool :=
  match nonempty q_room with
  | Some r => bool_decide (stored_room m = Some r)
  | None => true
  end.

(** [a.sort((x, y) => x.ts - y.ts)].  The sort of an array is stable, so
    its result is the one of this insertion sort: a message goes before
    the first message, among those that followed it, that is not older. *)
Fixpoint insert_by_ts (m : StoredMessage) (l : list StoredMessage) : list StoredMessage :=
  match l with
  | [] => [m]
  | y :: rest =>
      if stored_ts m <=? stored_ts y then m :: y :: rest
      else y :: insert_by_ts m rest
  end.

Definition sort_by_ts (l : list StoredMessage) : list StoredMessage :=
  foldr insert_by_ts [] l.

(** [a.slice(-n)] *)
Definition slice_last {A} (n : nat) (l : list A) : list A :=
  drop (length l - n) l.

(** [GET /messages?room=]: [mongo] is [None] when [isMongoConnected()] is
    false and otherwise the documents the query resolves with. *)
Definition get_messages (q_room : option string) (mongo : option (list StoredMessage))
    (s : Server) : list StoredMessage :=
  match mongo with
  | Some docs => docs
  | None =>
      slice_last 200
        (sort_by_ts (filter (λ m, room_matches q_room m = true) (inMemMessages s)))
  end.

(** Messages in the order of their time stamps. *)
Definition ts_le (a b : StoredMessage) : Prop := stored_ts a <= stored_ts b.

(** ** Start-up *)

(** What [server.listen(port)] leads to: the ['listening'] callback, an
    ['error'] with code [EADDRINUSE], or another ['error']. *)
Inductive ListenResult := Listening | AddrInUse | OtherError.

(** [startListening(port, retries)]: the port the server ends up
    listening on, or [None] when the process exits with status 1. *)
Fixpoint startListening (listen : Z → ListenResult) (port : Z) (retries : nat)
    : option Z :=
  match listen port with
  | Listening => Some port
  | AddrInUse =>
      match retries with
      | S r => startListening listen (port + 1) r
      | O => None
      end
  | OtherError => None
  end.

(** The outcome of [connectToMongo]: the flag [mongoConnected], the number
    of attempts its retry loop made and the number of one-second pauses. *)
Record MongoStart := mkMongoStart {
  mongoConnected : bool;
  attempts : nat;
  pauses : nat }.

(** The retry loop of [connectToMongo], from attempt number [attempt] with
    [remaining] attempts to go; [connect k] tells whether the [k]-th
    attempt resolves.  A failed attempt is followed by a pause unless it
    was the last one. *)
Fixpoint connect_loop (connect : nat → bool) (attempt remaining : nat) : MongoStart :=
  match remaining with
  | O => mkMongoStart false 0 0
  | S r =>
      if connect attempt then mkMongoStart true 1 0
      else
        let rest := connect_loop connect (S attempt) r in
        mkMongoStart (mongoConnected rest) (S (attempts rest))
                     ((match r with O => 0 | S _ => 1 end) + pauses rest)
  end.

(** [connectToMongo()]: [use_inmemory] is [USE_INMEMORY_MONGO],
    [inmemory_ok] whether the in-memory server starts, [uri] is
    [MONGODB_URI]. *)
Definition connectToMongo (use_inmemory inmemory_ok : bool) (uri : string)
    (connect : nat → bool) : MongoStart :=
  if use_inmemory then mkMongoStart inmemory_ok 0 0
  else if negb (truthy uri) then mkMongoStart false 0 0
  else connect_loop connect 1 10.

(** * Properties *)

(** Case analysis on the event of input [i], the equation kept as [Hi]. *)
Ltac event_cases i Hi :=
  destruct (event i) as [|p|room| |text room store| |to sdp media c
    |to sdp c|to cand c|to|to|to k|to a k|c room t to|c|c|c] eqn:Hi.

(** ** The handlers on small inputs *)

Example join_registers_anonymous :
  on_join "A" (JoinObject None (Some "u1")) (initial true)
  = (mkServer true [] [] [("A", mkUser "A" "Anonymous" (Some "u1"))]
              {["A" := None]} [] {["u1"]} ∅ [],
     [Emit (Broadcast "A") "user:join" (PUserJoin "A" "Anonymous");
      Emit ToAll "users" (PUsers [mkUser "A" "Anonymous" (Some "u1")]);
      RedisSadd "presence:global" "A";
      RedisSadd "presence:users" "u1"]).
Proof. reflexivity. Qed.

Example joinRoom_moves_socket :
  let r := run (connections ["A"; "B"]
                ++ [mkInput "A" 0 0 (Join (JoinName "alice"));
                    mkInput "A" 1 1 (JoinRoom (Some "lobby"));
                    mkInput "B" 2 2 (JoinRoom (Some "lobby"));
                    mkInput "A" 3 3 (JoinRoom (Some "dev"))]) (initial false) in
  rooms r.1 = [("A", "A"); ("B", "B"); ("lobby", "B"); ("dev", "A")]
  ∧ userRooms r.1 !! "A" = Some (Some "dev")
  ∧ last r.2 = Some (Emit (ToRoom "dev") "usersInRoom"
                          (PUsersInRoom [mkUser "A" "alice" None])).
Proof. vm_compute. done. Qed.

Example inMemMessages_capped :
  let inputs := map (λ k : nat, mkInput "A" (Z.of_nat k) 0 (Message "hi" None MongoOff))
                    (seq 0 502) in
  let s := (run inputs (initial false)).1 in
  length (inMemMessages s) = 500%nat
  ∧ (stored_ts <$> head (inMemMessages s)) = Some 2.
Proof. vm_compute. done. Qed.

Example call_lifecycle :
  let r := run (connections ["A"; "B"]
                ++ [mkInput "A" 10 11 (CallInvite "g1" (Some "lobby") Audio None);
                    mkInput "A" 12 12 (CallJoin "g1");
                    mkInput "B" 13 13 (CallJoin "g1");
                    mkInput "A" 20 20 (CallLeave "g1");
                    mkInput "B" 30 30 (CallLeave "g1")]) (initial false) in
  activeCalls r.1 !! "g1" = None
  ∧ callLogs r.1 = [mkLog "g1" (Some "lobby") Audio 11 (Some 30) "A" ["A"; "B"]]
  ∧ r.2 = [Emit (ToRoomFrom "A" "lobby") "call:invite" (PCallInvite "g1" Audio "A" None);
           Emit (ToRoom "lobby") "call:participants" (PCallParticipants "g1" ["A"]);
           Emit (ToRoom "lobby") "call:participants" (PCallParticipants "g1" ["A"; "B"]);
           Emit (ToRoom "lobby") "call:participants" (PCallParticipants "g1" ["B"]);
           Emit (ToRoom "lobby") "call:participants" (PCallParticipants "g1" [])].
Proof. vm_compute. done. Qed.

Example endAll_notifies_participants :
  let s := (run (connections ["A"; "B"]
                 ++ [mkInput "A" 10 11 (CallInvite "g1" None Video None);
                     mkInput "A" 12 12 (CallJoin "g1");
                     mkInput "B" 13 13 (CallJoin "g1")]) (initial false)).1 in
  (on_call_endAll "B" "g1" 40 s).2
  = [Emit (ToRoom "A") "webrtc:end" (PFrom "B");
     Emit (ToRoom "B") "webrtc:end" (PFrom "B");
     Emit ToAll "call:endAll" (PCallEndAll "g1")].
Proof. vm_compute. done. Qed.

Example verifyJwt_parses_header :
  let verify := λ token, Some (mkClaims token 0) in
  verifyJwt verify (Some "BeArEr abc") = Some (mkClaims "abc" 0)
  ∧ verifyJwt verify (Some "Bearer  abc") = None
  ∧ verifyJwt verify (Some "Basic abc") = None
  ∧ verifyJwt verify (Some "Bearer") = None.
Proof. vm_compute. done. Qed.

(** ** Rate limiter *)

Section RateLimit.
Variables (limit windowMs : Z).
Implicit Types (rm : gmap string RateEntry) (calls : list (string * Z)).

(** A call on one key leaves the counters of the others alone. *)
Lemma rateLimit_other_key now k k' rm :
  k ≠ k' → (rateLimit now k' limit windowMs rm).2 !! k = rm !! k.
Proof.
  intros Hne. unfold rateLimit.
  destruct (rm !! k') as [cur|]; simpl.
  - destruct (windowMs <? now - ts cur); simpl; [by rewrite lookup_insert_ne|].
    destruct (limit <=? count cur); simpl; [done|by rewrite lookup_insert_ne].
  - by rewrite lookup_insert_ne.
Qed.

(** A call that finds no open window opens one and is allowed. *)
Lemma rateLimit_opens now key rm :
  window_closed key now windowMs rm →
  rateLimit now key limit windowMs rm = (true, <[key := mkRate 1 now]> rm).
Proof.
  unfold window_closed, rateLimit. destruct (rm !! key) as [cur|]; [|done].
  intros H. apply Z.ltb_lt in H. by rewrite H.
Qed.

(** Inside an open window the counter decides. *)
Lemma rateLimit_inside now key c t0 rm :
  rm !! key = Some (mkRate c t0) → now - t0 <= windowMs →
  rateLimit now key limit windowMs rm =
    (if limit <=? c then (false, rm) else (true, <[key := mkRate (c + 1) t0]> rm)).
Proof.
  intros Hk Hin. unfold rateLimit. rewrite Hk. simpl.
  assert ((windowMs <? now - t0) = false) as -> by (apply Z.ltb_ge; lia).
  reflexivity.
Qed.

Lemma first_n_shift c m :
  map (λ i : nat, c + 1 + Z.of_nat i <? limit) (seq 0 m)
  = map (λ i : nat, c + Z.of_nat i <? limit) (seq 1 m).
Proof.
  rewrite <- (fmap_S_seq 0 m). rewrite <- list_fmap_compose.
  apply map_ext. intros i. simpl. f_equal. lia.
Qed.

(** With the window of [key] open since [t0] at count [c], the [i]-th
    further call on [key] is allowed exactly when [c + i < limit], and
    the window still dates from [t0] afterwards. *)
Lemma rateLimit_run_inside key t0 calls : ∀ c rm,
  rm !! key = Some (mkRate c t0) →
  in_window key t0 windowMs calls →
  answers_for key (rateLimit_run limit windowMs calls rm).1
    = map (λ i : nat, c + Z.of_nat i <? limit) (seq 0 (count_calls key calls))
  ∧ ∃ c', (rateLimit_run limit windowMs calls rm).2 !! key = Some (mkRate c' t0).
Proof.
  induction calls as [|[k now] rest IH]; intros c rm Hk Hin.
  - simpl. split; [done|eauto].
  - apply Forall_cons in Hin as [Hnow Hrest]. simpl in Hnow.
    unfold count_calls. simpl. rewrite filter_cons. simpl.
    destruct (decide (k = key)) as [->|Hne].
    + rewrite (rateLimit_inside now key c t0 rm Hk (Hnow eq_refl)).
      destruct (limit <=? c) eqn:Hc.
      * destruct (IH c rm Hk Hrest) as [IHa IHs].
        destruct (rateLimit_run limit windowMs rest rm) as [bs rm2]. simpl in *.
        unfold answers_for in *. rewrite filter_cons. simpl.
        rewrite decide_True by done. simpl. split; [|done].
        assert ((c + Z.of_nat 0 <? limit) = false) as -> by (apply Z.ltb_ge; lia).
        f_equal. rewrite IHa. fold (count_calls key rest).
        rewrite <- (fmap_S_seq 0). rewrite <- list_fmap_compose.
        apply map_ext. intros i. simpl.
        transitivity false; [|symmetry]; apply Z.ltb_ge; lia.
      * assert (<[key := mkRate (c + 1) t0]> rm !! key = Some (mkRate (c + 1) t0)) as Hk'
          by apply lookup_insert_eq.
        destruct (IH (c + 1) _ Hk' Hrest) as [IHa IHs].
        destruct (rateLimit_run limit windowMs rest _) as [bs rm2]. simpl in *.
        unfold answers_for in *. rewrite filter_cons. simpl.
        rewrite decide_True by done. simpl. split; [|done].
        assert ((c + Z.of_nat 0 <? limit) = true) as -> by (apply Z.ltb_lt; lia).
        f_equal. rewrite IHa. apply first_n_shift.
    + pose proof (rateLimit_other_key now key k rm (not_eq_sym Hne)) as Hfr.
      destruct (rateLimit now k limit windowMs rm) as [b rm1]. simpl in Hfr.
      rewrite <- Hfr in Hk.
      destruct (IH c rm1 Hk Hrest) as [IHa IHs].
      destruct (rateLimit_run limit windowMs rest rm1) as [bs rm2]. simpl in *.
      unfold answers_for in *. rewrite filter_cons. simpl.
      rewrite decide_False by done. done.
Qed.

(** The window in full, for any [limit]: of the call at [t0] that finds no
    open window of the key and the calls on the key up to [windowMs] after
    [t0], whatever calls on other keys come in between, exactly the first
    [max 1 limit] are allowed; the first call made more than [windowMs]
    after [t0] is allowed and opens a new window with count 1. *)
Lemma rateLimit_fixed_window key t0 t1 calls rm :
  window_closed key t0 windowMs rm →
  in_window key t0 windowMs calls →
  windowMs < t1 - t0 →
  let r := rateLimit_run limit windowMs ((key, t0) :: calls) rm in
  answers_for key r.1 = first_n_true (Z.max 1 limit) (S (count_calls key calls))
  ∧ rateLimit t1 key limit windowMs r.2 = (true, <[key := mkRate 1 t1]> r.2).
Proof.
  intros Hclosed Hin Hlate. simpl.
  rewrite (rateLimit_opens t0 key rm Hclosed).
  destruct (rateLimit_run_inside key t0 calls 1 (<[key := mkRate 1 t0]> rm))
    as [Ha [c' Hs]]; [apply lookup_insert_eq|done|].
  destruct (rateLimit_run limit windowMs calls _) as [bs rm2]. simpl in *.
  split.
  - unfold answers_for in *. rewrite filter_cons. simpl.
    rewrite decide_True by done. simpl. rewrite Ha.
    unfold first_n_true. simpl. f_equal; [symmetry; apply Z.ltb_lt; lia|].
    rewrite <- (fmap_S_seq 0). rewrite <- list_fmap_compose.
    apply map_ext. intros i. simpl.
    destruct (Z.ltb_spec (1 + Z.of_nat i) limit);
      symmetry; [apply Z.ltb_lt|apply Z.ltb_ge]; lia.
  - apply rateLimit_opens. unfold window_closed. rewrite Hs. simpl. lia.
Qed.

(** C6: for every key, [rateLimit] is a fixed-window counter.  With a
    limit of at least 1 (every caller uses the default, 60): the call at
    [t0] that finds no open window of the key opens one; of that call and
    the calls on the key up to [windowMs] after [t0], whatever calls on
    other keys come in between, exactly the first [limit] return true and
    every further one returns false; the first call made more than
    [windowMs] after [t0] returns true and begins a new window. *)
Theorem rateLimit_first_limit_calls key t0 t1 calls rm :
  1 <= limit →
  window_closed key t0 windowMs rm →
  in_window key t0 windowMs calls →
  windowMs < t1 - t0 →
  let r := rateLimit_run limit windowMs ((key, t0) :: calls) rm in
  answers_for key r.1 = first_n_true limit (S (count_calls key calls))
  ∧ rateLimit t1 key limit windowMs r.2 = (true, <[key := mkRate 1 t1]> r.2).
Proof.
  intros Hlimit Hclosed Hin Hlate.
  pose proof (rateLimit_fixed_window key t0 t1 calls rm Hclosed Hin Hlate) as H.
  cbv zeta in H. by rewrite Z.max_r in H by done.
Qed.
End RateLimit.

Lemma rateLimit_first_limit_calls_witness :
  let r := rateLimit_run 2 60000
             [("get:u1", 0); ("get:u1", 10); ("post:u1", 20); ("get:u1", 60000)] ∅ in
  answers_for "get:u1" r.1 = first_n_true 2 3
  ∧ rateLimit 60001 "get:u1" 2 60000 r.2 = (true, <[ "get:u1" := mkRate 1 60001]> r.2).
Proof.
  apply (rateLimit_first_limit_calls 2 60000 "get:u1" 0 60001
           [("get:u1", 10); ("post:u1", 20); ("get:u1", 60000)] ∅).
  - lia.
  - reflexivity.
  - repeat constructor; simpl; intros; lia.
  - lia.
Defined.

(** A limit below 1, which no caller passes, is outside that statement:
    the call that opens a window is allowed without a look at the limit. *)
Example rateLimit_limit_zero_opens :
  answers_for "get:u1" (rateLimit_run 0 60000 [("get:u1", 1000)] ∅).1 = [true].
Proof. reflexivity. Qed.

(** ** Room membership *)

Section Rooms.
Implicit Types (rs : list (string * string)) (s : Server).

Lemma rooms_of_app sid rs1 rs2 :
  rooms_of sid (rs1 ++ rs2) = rooms_of sid rs1 ++ rooms_of sid rs2.
Proof. unfold rooms_of. by rewrite filter_app, fmap_app. Qed.

Lemma rooms_of_elem sid r rs :
  r ∈ rooms_of sid rs ↔ r ≠ sid ∧ (r, sid) ∈ rs.
Proof.
  unfold rooms_of. rewrite list_elem_of_fmap. split.
  - intros [[r' x] [-> Hin]]. apply list_elem_of_filter in Hin as [[Hx Hr] Hin].
    simpl in *. by subst.
  - intros [Hne Hin]. exists (r, sid). split; [done|].
    apply list_elem_of_filter. by simpl.
Qed.

Lemma rooms_of_leave_other sid sid' r rs :
  sid ≠ sid' → rooms_of sid (socket_leave r sid' rs) = rooms_of sid rs.
Proof.
  intros Hne. unfold rooms_of, socket_leave. f_equal.
  rewrite list_filter_filter. apply list_filter_iff.
  intros [r' x]. simpl. naive_solver.
Qed.

Lemma rooms_of_leave_same sid r rs :
  rooms_of sid (socket_leave r sid rs) = filter (λ x, x ≠ r) (rooms_of sid rs).
Proof.
  unfold rooms_of, socket_leave.
  induction rs as [|[r' x] rs IH]; [done|].
  rewrite !filter_cons. simpl.
  repeat (case_decide; simpl; rewrite ?filter_cons; simpl);
    try rewrite IH; try done; naive_solver.
Qed.

Lemma rooms_of_join_other sid sid' r rs :
  sid ≠ sid' → rooms_of sid (socket_join r sid' rs) = rooms_of sid rs.
Proof.
  intros Hne. unfold socket_join. case_bool_decide; [done|].
  rewrite rooms_of_app. unfold rooms_of at 2. rewrite filter_cons. simpl.
  rewrite decide_False by naive_solver. apply app_nil_r.
Qed.

Lemma rooms_of_join_same sid r rs :
  rooms_of sid rs = [] →
  rooms_of sid (socket_join r sid rs) = if bool_decide (r = sid) then [] else [r].
Proof.
  intros Hnone. unfold socket_join. case_bool_decide as Hin.
  - rewrite Hnone. case_bool_decide as Hr; [done|].
    assert (r ∈ rooms_of sid rs) as Hr' by by apply rooms_of_elem.
    rewrite Hnone in Hr'. by apply elem_of_nil in Hr'.
  - rewrite rooms_of_app, Hnone. unfold rooms_of. rewrite filter_cons. simpl.
    case_bool_decide; [rewrite decide_False by naive_solver
                      |rewrite decide_True by naive_solver]; done.
Qed.

Lemma run_app (is1 is2 : list Input) s :
  run (is1 ++ is2) s =
    ((run is2 (run is1 s).1).1, (run is1 s).2 ++ (run is2 (run is1 s).1).2).
Proof.
  revert s. induction is1 as [|i is1 IH]; intros s; simpl.
  - by destruct (run is2 s).
  - destruct (step i s) as [s1 o1]. rewrite IH.
    destruct (run is1 s1) as [s2 o2]. simpl.
    destruct (run is2 s2) as [s3 o3]. simpl. by rewrite app_assoc.
Qed.

Lemma tracked_room_short sid s : (length (tracked_room sid s) ≤ 1)%nat.
Proof.
  unfold tracked_room. destruct (prev_room sid s); [case_bool_decide|]; simpl; lia.
Qed.

(** What [userRooms.set(sid', v)] does to the rooms on record. *)
Lemma prev_room_set sid sid' v s :
  prev_room sid (set_userRooms (<[sid' := v]> (userRooms s)) s)
  = if bool_decide (sid = sid') then nonempty v else prev_room sid s.
Proof.
  unfold prev_room. simpl. case_bool_decide as Heq.
  - subst. by rewrite lookup_insert_eq.
  - by rewrite lookup_insert_ne.
Qed.

(** After [socket.leave(prev)] the joining socket is in no room but its own. *)
Lemma left_previous sid s :
  rooms_agree s →
  rooms_of sid (rooms (match prev_room sid s with
                       | Some prev => set_rooms (socket_leave prev sid (rooms s)) s
                       | None => s
                       end)) = [].
Proof.
  intros Hinv. specialize (Hinv sid). unfold tracked_room in Hinv.
  destruct (prev_room sid s) as [prev|]; [|done]. simpl.
  rewrite rooms_of_leave_same, Hinv.
  case_bool_decide; [done|]. rewrite filter_cons. by rewrite decide_False by naive_solver.
Qed.

Lemma on_connection_rooms sid s x :
  rooms_of x (rooms (on_connection sid s).1) = rooms_of x (rooms s).
Proof.
  simpl. unfold socket_join.
  case_bool_decide; [done|]. rewrite rooms_of_app.
  unfold rooms_of at 2. rewrite filter_cons. simpl.
  rewrite decide_False by naive_solver. apply app_nil_r.
Qed.

Lemma on_join_prev sid p s x :
  prev_room x (on_join sid p s).1
  = if bool_decide (x = sid) then None else prev_room x s.
Proof.
  unfold on_join, prev_room.
  destruct (nonempty (join_userId p)); simpl; case_bool_decide as Heq; subst;
    by rewrite ?lookup_insert_eq, ?lookup_insert_ne by done.
Qed.

Lemma on_join_rooms sid p s : rooms (on_join sid p s).1 = rooms s.
Proof. unfold on_join. by destruct (nonempty (join_userId p)). Qed.

(** Connecting and registering put nobody in a room. *)
Lemma setup_no_rooms setup : ∀ s,
  Forall (λ i, is_setup (event i) = true) setup →
  no_rooms s → no_rooms (run setup s).1.
Proof.
  induction setup as [|i setup IH]; intros s Hset Hno; [done|].
  apply Forall_cons in Hset as [Hi Hset]. simpl.
  assert (no_rooms (step i s).1) as Hstep.
  { unfold step. destruct (event i); try discriminate; intros x.
    - rewrite on_connection_rooms. apply Hno.
    - rewrite on_join_rooms, on_join_prev.
      split; [apply Hno|]. case_bool_decide; [done|apply Hno]. }
  specialize (IH _ Hset Hstep).
  destruct (step i s) as [s1 o1]. simpl in *. by destruct (run setup s1).
Qed.

Lemma no_rooms_agree s : no_rooms s → rooms_agree s.
Proof.
  intros Hno x. destruct (Hno x) as [Hr Hp]. unfold tracked_room. by rewrite Hr, Hp.
Qed.

Lemma on_joinRoom_rooms sid room s :
  rooms_agree s →
  rooms_of sid (rooms (on_joinRoom sid room s).1)
  = match nonempty room with
    | Some r => if bool_decide (r = sid) then [] else [r]
    | None => []
    end.
Proof.
  intros Hinv. pose proof (left_previous sid s Hinv) as Hleft.
  unfold on_joinRoom. destruct (nonempty room) as [r|]; simpl.
  - by apply rooms_of_join_same.
  - done.
Qed.

Lemma nonempty_idem o : nonempty (nonempty o) = nonempty o.
Proof. destruct o as [r|]; simpl; [|done]. by destruct (truthy r) eqn:Hr; simpl; rewrite ?Hr. Qed.

Lemma on_joinRoom_prev sid room s x :
  prev_room x (on_joinRoom sid room s).1
  = if bool_decide (x = sid) then nonempty room else prev_room x s.
Proof.
  pose proof (nonempty_idem room) as Hidem.
  unfold on_joinRoom, prev_room.
  destruct (nonempty room) as [r|]; simpl; case_bool_decide as Heq; subst;
    rewrite ?lookup_insert_eq, ?lookup_insert_ne by done; try done;
    by destruct (userRooms s !! sid) as [o|]; [destruct (nonempty o)|].
Qed.

Lemma on_joinRoom_agree sid room s : rooms_agree s → rooms_agree (on_joinRoom sid room s).1.
Proof.
  intros Hinv x. unfold tracked_room. rewrite on_joinRoom_prev.
  case_bool_decide as Heq.
  - subst. by apply on_joinRoom_rooms.
  - fold (tracked_room x s). rewrite <- (Hinv x). unfold on_joinRoom.
    destruct (prev_room sid s) as [prev|], (nonempty room) as [r|]; simpl;
      rewrite ?rooms_of_join_other, ?rooms_of_leave_other by done; done.
Qed.

Lemma on_leaveRoom_rooms sid s :
  rooms_agree s → rooms_of sid (rooms (on_leaveRoom sid s).1) = [].
Proof.
  intros Hinv. pose proof (left_previous sid s Hinv) as Hleft.
  unfold on_leaveRoom. by destruct (prev_room sid s) as [prev|].
Qed.

Lemma on_leaveRoom_prev sid s x :
  prev_room x (on_leaveRoom sid s).1
  = if bool_decide (x = sid) then None else prev_room x s.
Proof.
  unfold on_leaveRoom. destruct (prev_room sid s) as [prev|] eqn:Hprev; simpl.
  - unfold prev_room. simpl. case_bool_decide as Heq; subst;
      by rewrite ?lookup_insert_eq, ?lookup_insert_ne by done.
  - case_bool_decide; by subst.
Qed.

Lemma on_leaveRoom_agree sid s : rooms_agree s → rooms_agree (on_leaveRoom sid s).1.
Proof.
  intros Hinv x. unfold tracked_room. rewrite on_leaveRoom_prev.
  case_bool_decide as Heq.
  - subst. by apply on_leaveRoom_rooms.
  - fold (tracked_room x s). rewrite <- (Hinv x). unfold on_leaveRoom.
    destruct (prev_room sid s) as [prev|]; simpl; [|done].
    by rewrite rooms_of_leave_other.
Qed.

Lemma room_ops_agree inputs : ∀ s,
  Forall (λ i, is_room_op (event i) = true) inputs →
  rooms_agree s → rooms_agree (run inputs s).1.
Proof.
  induction inputs as [|i inputs IH]; intros s Hops Hinv; [done|].
  apply Forall_cons in Hops as [Hop Hops]. simpl.
  assert (rooms_agree (step i s).1) as Hstep.
  { unfold step. destruct (event i); try discriminate.
    - by apply on_joinRoom_agree.
    - by apply on_leaveRoom_agree. }
  specialize (IH _ Hops Hstep).
  destruct (step i s) as [s1 o1]. simpl in *. by destruct (run inputs s1).
Qed.

(** C5: let any sockets connect and register, and then perform any
    sequence of [joinRoom] and [leaveRoom] events.  At every point [n] of
    that sequence every socket is in at most one room (besides the room
    socket.io names after it); a [joinRoom] performed there leaves the
    socket in the new room only, its previous room left first; and a
    [leaveRoom] performed there leaves it in no room. *)
Theorem single_room_invariant with_redis setup inputs n sid :
  Forall (λ i, is_setup (event i) = true) setup →
  Forall (λ i, is_room_op (event i) = true) inputs →
  let s := (run (setup ++ take n inputs) (initial with_redis)).1 in
  (length (rooms_of sid (rooms s)) ≤ 1)%nat
  ∧ (∀ room, rooms_of sid (rooms (on_joinRoom sid room s).1)
             = match nonempty room with
               | Some r => if bool_decide (r = sid) then [] else [r]
               | None => []
               end)
  ∧ rooms_of sid (rooms (on_leaveRoom sid s).1) = [].
Proof.
  intros Hset Hops s.
  assert (rooms_agree s) as Hinv.
  { subst s. rewrite run_app. simpl. apply room_ops_agree.
    - by apply Forall_take.
    - apply no_rooms_agree, setup_no_rooms; [done|]. by intros x. }
  split; [|split].
  - rewrite (Hinv sid). apply tracked_room_short.
  - intros room. by apply on_joinRoom_rooms.
  - by apply on_leaveRoom_rooms.
Qed.
End Rooms.

Lemma single_room_invariant_witness :
  let setup := [mkInput "A" 0 0 Connection;
                mkInput "A" 1 1 (Join (JoinName "alice"));
                mkInput "B" 2 2 Connection] in
  let inputs := [mkInput "A" 3 3 (JoinRoom (Some "lobby"));
                 mkInput "B" 4 4 (JoinRoom (Some "lobby"));
                 mkInput "A" 5 5 (JoinRoom (Some "dev"));
                 mkInput "B" 6 6 LeaveRoom] in
  let s := (run (setup ++ take 3 inputs) (initial false)).1 in
  (length (rooms_of "A" (rooms s)) ≤ 1)%nat
  ∧ (∀ room, rooms_of "A" (rooms (on_joinRoom "A" room s).1)
             = match nonempty room with
               | Some r => if bool_decide (r = "A") then [] else [r]
               | None => []
               end)
  ∧ rooms_of "A" (rooms (on_leaveRoom "A" s).1) = [].
Proof.
  apply (single_room_invariant false
           [mkInput "A" 0 0 Connection;
            mkInput "A" 1 1 (Join (JoinName "alice"));
            mkInput "B" 2 2 Connection]
           [mkInput "A" 3 3 (JoinRoom (Some "lobby"));
            mkInput "B" 4 4 (JoinRoom (Some "lobby"));
            mkInput "A" 5 5 (JoinRoom (Some "dev"));
            mkInput "B" 6 6 LeaveRoom] 3 "A").
  - repeat constructor.
  - repeat constructor.
Defined.

(** ** Chat messages *)

Section Messages.
Implicit Types (s : Server) (store : StoreOutcome).

Lemma reached_by_single s ev t p :
  reached_by s ev [Emit t ev p] = recipients s t.
Proof.
  unfold reached_by. simpl. rewrite bool_decide_eq_true_2 by done. apply app_nil_r.
Qed.

Lemma room_members_elem r x (rs : list (string * string)) :
  x ∈ room_members r rs ↔ (r, x) ∈ rs.
Proof.
  unfold room_members. rewrite list_elem_of_fmap. split.
  - intros [[r' y] [-> Hin]]. apply list_elem_of_filter in Hin as [Hr Hin].
    simpl in *. by subst.
  - intros Hin. exists (r, x). split; [done|]. by apply list_elem_of_filter.
Qed.


(** C10: a ['message'] from a socket that never sent ['join'] is not
    refused: the payload goes out to the same audience as any other, with
    the name ["Anonymous"] and the socket's id on it. *)
Theorem message_from_unregistered sid text room store now s :
  jsmap_get sid (users s) = None →
  (on_message sid text room store now s).2
  = [Emit (match nonempty (message_room sid room s) with
           | Some r => ToRoom r
           | None => ToAll
           end)
          "message" (PMessage sid "Anonymous" text now (message_room sid room s))].
Proof. intros Hnone. unfold on_message, sender_name. by rewrite Hnone. Qed.
End Messages.

Lemma message_from_unregistered_witness :
  let s := (run (connections ["A"; "B"]) (initial false)).1 in
  (on_message "A" "hello" None MongoThrew 1000 s).2
  = [Emit ToAll "message" (PMessage "A" "Anonymous" "hello" 1000 None)].
Proof.
  apply (message_from_unregistered "A" "hello" None MongoThrew 1000
           (run (connections ["A"; "B"]) (initial false)).1).
  reflexivity.
Defined.

(** ** Calls: invitations and signalling *)

Section Calls.
Implicit Types (s : Server) (logs : list CallLog).

(** The emit of [call:invite], whether the session is new or not. *)
Lemma on_call_invite_out sid callId room type to now later s :
  (on_call_invite sid callId room type to now later s).2
  = [Emit (invite_audience sid room to) "call:invite"
          (PCallInvite callId type sid (user_name <$> jsmap_get sid (users s)))].
Proof.
  unfold on_call_invite, invite_audience.
  destruct (activeCalls s !! callId); simpl;
    by destruct (nonempty to); [|destruct (nonempty room)].
Qed.

(** C9: a [call:invite] whose call id is already in the active set
    changes nothing on the server, so the session keeps its initiator,
    start time, type, room and participants and the call log keeps its
    entries; the handler only sends the invitation. *)
Theorem invite_existing_call_unchanged sid callId room type to now later s :
  is_Some (activeCalls s !! callId) →
  on_call_invite sid callId room type to now later s
  = (s, [Emit (invite_audience sid room to) "call:invite"
              (PCallInvite callId type sid (user_name <$> jsmap_get sid (users s)))]).
Proof.
  intros [st Hst].
  rewrite (surjective_pairing (on_call_invite _ _ _ _ _ _ _ _)).
  rewrite on_call_invite_out. f_equal.
  unfold on_call_invite. by rewrite Hst.
Qed.

(** C2 (amended): the server does not look at the sessions of the target
    of an offer.  A [webrtc:offer] with a non-empty [to] is relayed to
    the target, in a call or not, and nothing else is sent, no busy
    signal either; the server state, every session in it, is as before.
    A busy signal exists only as the relay of a [call:busy] that a
    client sends, to the [to] it names. *)
Theorem offer_relayed_regardless sid to sdp media callId s :
  on_webrtc_offer sid to sdp media callId s
  = (s, match nonempty to with
        | Some t => [Emit (ToRoom t) "webrtc:offer" (POffer sid sdp media callId)]
        | None => []
        end)
  ∧ (∀ s' x, x ∈ reached_by s' "webrtc:offer" (on_webrtc_offer sid to sdp media callId s).2
             ↔ ∃ t, nonempty to = Some t ∧ (t, x) ∈ rooms s')
  ∧ (∀ s', reached_by s' "call:busy" (on_webrtc_offer sid to sdp media callId s).2 = [])
  ∧ on_call_busy sid to s
    = (s, match nonempty to with
          | Some t => [Emit (ToRoom t) "call:busy" (PFrom sid)]
          | None => []
          end).
Proof.
  unfold on_webrtc_offer, on_call_busy, relay.
  destruct (nonempty to) as [t|]; simpl; (split; [done|]); (split; [|done]); intros s' x.
  - rewrite reached_by_single. simpl. rewrite room_members_elem. naive_solver.
  - unfold reached_by. simpl. rewrite elem_of_nil. naive_solver.
Qed.
End Calls.

Lemma invite_existing_call_unchanged_witness :
  let s := (run (connections ["A"; "B"]
                 ++ [mkInput "A" 1000 1001 (CallInvite "c1" None Video (Some "B"))])
              (initial false)).1 in
  on_call_invite "B" "c1" (Some "lobby") Audio None 2000 2001 s
  = (s, [Emit (invite_audience "B" (Some "lobby") None) "call:invite"
              (PCallInvite "c1" Audio "B" (user_name <$> jsmap_get "B" (users s)))]).
Proof.
  apply invite_existing_call_unchanged. vm_compute. eauto.
Defined.

(** C2 as stated fails: B has joined call c1; D's offer to B for a call c2
    is relayed to B, and D is sent no busy signal. *)
Lemma offer_to_busy_target_counterexample :
  let s := (run (connections ["A"; "B"; "D"]
                 ++ [mkInput "A" 1000 1001 (CallInvite "c1" None Video (Some "B"));
                     mkInput "A" 1002 1002 (CallJoin "c1");
                     mkInput "B" 1003 1003 (CallJoin "c1")])
              (initial false)).1 in
  let r := step (mkInput "D" 2000 2000 (WebrtcOffer (Some "B") "sdp" (Some Video) (Some "c2"))) s in
  (call_participants <$> activeCalls s !! "c1") = Some ["A"; "B"]
  ∧ r.2 = [Emit (ToRoom "B") "webrtc:offer" (POffer "D" "sdp" (Some Video) (Some "c2"))]
  ∧ reached_by r.1 "webrtc:offer" r.2 = ["B"]
  ∧ reached_by r.1 "call:busy" r.2 = [].
Proof. vm_compute. done. Qed.

(** ** Call sessions and the call log *)

Section CallLog.
Implicit Types (s : Server) (logs : list CallLog) (f : CallLog → CallLog).

Lemma update_log_ids c f logs :
  (∀ l, log_callId (f l) = log_callId l) →
  map log_callId (update_log c f logs) = map log_callId logs.
Proof.
  intros Hf. induction logs as [|l logs IH]; [done|]. simpl.
  case_bool_decide; simpl; [by rewrite Hf|by rewrite IH].
Qed.

Lemma update_log_lookup n c f logs l :
  logs !! n = Some l →
  update_log c f logs !! n = Some l
  ∨ (log_callId l = c ∧ update_log c f logs !! n = Some (f l)).
Proof.
  revert n. induction logs as [|l0 logs IH]; intros n Hn; [done|]. simpl.
  case_bool_decide as Hc.
  - destruct n as [|n]; simpl in *; [|by left].
    right. by simplify_eq.
  - destruct n as [|n]; simpl in *; [by left|]. by apply IH.
Qed.

Lemma update_log_find c f logs :
  (∀ l, log_callId (f l) = log_callId l) →
  find_log c (update_log c f logs) = f <$> find_log c logs.
Proof.
  intros Hf. unfold find_log. induction logs as [|l logs IH]; [done|]. simpl.
  case_bool_decide as Hc; simpl.
  - by rewrite Hf, bool_decide_eq_true_2.
  - by rewrite bool_decide_eq_false_2.
Qed.

Lemma finalized_id now l : log_callId (finalized now l) = log_callId l.
Proof. unfold finalized. by destruct (truthy_num _). Qed.

Lemma finalized_ended now l : is_Some (log_endedAt (finalized now l)).
Proof.
  unfold finalized. destruct (log_endedAt l) as [t|] eqn:Ht; simpl.
  - destruct (negb (t =? 0)); simpl; rewrite ?Ht; eauto.
  - eauto.
Qed.

(** An entry of another call id is out of reach of an update. *)
Lemma update_log_open_other n c c' f logs :
  c ≠ c' → open_at n c logs → open_at n c (update_log c' f logs).
Proof.
  intros Hne (l & Hl & Hid & Hend).
  destruct (update_log_lookup n c' f logs l Hl) as [H|[Hc H]].
  - by exists l.
  - congruence.
Qed.

(** An update that keeps call id and end time keeps an open entry open. *)
Lemma update_log_open_kept n c c' f logs :
  (∀ l, log_callId (f l) = log_callId l ∧ log_endedAt (f l) = log_endedAt l) →
  open_at n c logs → open_at n c (update_log c' f logs).
Proof.
  intros Hf (l & Hl & Hid & Hend).
  destruct (update_log_lookup n c' f logs l Hl) as [H|[Hc H]].
  - by exists l.
  - exists (f l). destruct (Hf l) as [-> ->]. done.
Qed.

(** Only the four call handlers touch the sessions and the log. *)
Lemma step_keeps_calls i s :
  match event i with
  | CallInvite _ _ _ _ | CallJoin _ | CallLeave _ | CallEndAll _ => False
  | _ => True
  end →
  activeCalls (step i s).1 = activeCalls s ∧ callLogs (step i s).1 = callLogs s.
Proof.
  unfold step. event_cases i Hi; intros Hev; try done; simpl.
  - unfold on_join. simpl. by destruct (nonempty (join_userId p)).
  - unfold on_joinRoom.
    by destruct (prev_room (from i) s), (nonempty room).
  - unfold on_leaveRoom. by destruct (prev_room (from i) s).
  - by destruct store.
  - unfold on_disconnect. simpl.
    by destruct (nonempty (jsmap_get (from i) (users s) ≫= user_userId)).
  - unfold on_webrtc_offer, relay. by destruct (nonempty to).
  - unfold on_webrtc_answer, relay. by destruct (nonempty to).
  - unfold on_webrtc_ice, relay. by destruct (nonempty to).
  - unfold on_webrtc_end, relay. by destruct (nonempty to).
  - unfold on_call_busy, relay. by destruct (nonempty to).
  - unfold on_call_upgrade, relay. by destruct (nonempty to).
  - unfold on_call_upgrade_response, relay. by destruct (nonempty to).
Qed.

(** C3 (amended): the disconnect handler does not touch the calls: the
    active set, every participant set in it and the call log are after a
    disconnect what they were before.  A socket leaves a session through
    [call:leave] for that call id only: it is then out of the
    participant set; when that leaves nobody, the session is removed
    from the active set and the first log entry carrying the call id, if
    there is one, has an end time afterwards; otherwise the session stays
    active with the remaining participants and the log is unchanged. *)
Theorem disconnect_keeps_calls sid callId now st s :
  activeCalls s !! callId = Some st →
  (activeCalls (on_disconnect sid s).1 = activeCalls s
   ∧ callLogs (on_disconnect sid s).1 = callLogs s)
  ∧ let s' := (on_call_leave sid callId now s).1 in
    let rest := jsset_delete sid (call_participants st) in
    (sid ∉ rest)
    ∧ match rest with
      | [] => activeCalls s' = delete callId (activeCalls s)
              ∧ find_log callId (callLogs s') = finalized now <$> find_log callId (callLogs s)
              ∧ ∀ l, find_log callId (callLogs s') = Some l → is_Some (log_endedAt l)
      | _ :: _ => activeCalls s' = <[callId := set_call_participants rest st]> (activeCalls s)
                  ∧ callLogs s' = callLogs s
      end.
Proof.
  intros Hst. split.
  - apply (step_keeps_calls (mkInput sid now now Disconnect) s). done.
  - intros s' rest. split.
    + subst rest. unfold jsset_delete. rewrite list_elem_of_filter. naive_solver.
    + subst s'. unfold on_call_leave. rewrite Hst. simpl. fold rest.
      destruct rest as [|x rest']; simpl; [|done].
      assert (find_log callId (finalize callId now (callLogs s))
              = finalized now <$> find_log callId (callLogs s)) as Hfind
        by apply update_log_find, finalized_id.
      split; [apply delete_insert_eq|]. split; [done|].
      intros l. rewrite Hfind. destruct (find_log callId (callLogs s)); [|done].
      simpl. intros [= <-]. apply finalized_ended.
Qed.
End CallLog.

Lemma disconnect_keeps_calls_witness :
  let s := (run (connections ["A"; "B"]
                 ++ [mkInput "A" 1000 1001 (CallInvite "c1" None Video None);
                     mkInput "B" 1002 1002 (CallJoin "c1")])
              (initial false)).1 in
  let st := mkCall None Video ["B"] 1000 "A" in
  (activeCalls (on_disconnect "B" s).1 = activeCalls s
   ∧ callLogs (on_disconnect "B" s).1 = callLogs s)
  ∧ let s' := (on_call_leave "B" "c1" 5000 s).1 in
    let rest := jsset_delete "B" (call_participants st) in
    ("B" ∉ rest)
    ∧ match rest with
      | [] => activeCalls s' = delete "c1" (activeCalls s)
              ∧ find_log "c1" (callLogs s') = finalized 5000 <$> find_log "c1" (callLogs s)
              ∧ ∀ l, find_log "c1" (callLogs s') = Some l → is_Some (log_endedAt l)
      | _ :: _ => activeCalls s' = <["c1" := set_call_participants rest st]> (activeCalls s)
                  ∧ callLogs s' = callLogs s
      end.
Proof.
  apply (disconnect_keeps_calls "B" "c1" 5000 (mkCall None Video ["B"] 1000 "A")).
  reflexivity.
Defined.

(** C3 as stated fails: B has joined call c1 and disconnects; B is still
    a participant of c1 afterwards, c1 is still active and its log entry
    has no end time. *)
Lemma disconnect_mid_call_counterexample :
  let s := (run (connections ["A"; "B"]
                 ++ [mkInput "A" 1000 1001 (CallInvite "c1" None Video None);
                     mkInput "B" 1002 1002 (CallJoin "c1");
                     mkInput "B" 5000 5000 Disconnect])
              (initial false)).1 in
  sockets s = ["A"]
  ∧ (call_participants <$> activeCalls s !! "c1") = Some ["B"]
  ∧ (log_endedAt <$> find_log "c1" (callLogs s)) = Some None.
Proof. vm_compute. done. Qed.

Section NoTimeout.
Implicit Types (s : Server) (logs : list CallLog).

Lemma open_at_app n c logs extra : open_at n c logs → open_at n c (logs ++ extra).
Proof. intros (l & Hl & H). exists l. split; [by apply lookup_app_l_Some|done]. Qed.

(** An event other than [call:leave] and [call:endAll] of the call id
    leaves the session active and its entry open. *)
Lemma step_keeps_ringing n callId i s :
  ends_call callId (event i) = false →
  ringing n callId s → ringing n callId (step i s).1.
Proof.
  intros Hev [Hact Hopen].
  event_cases i Hi;
    try (destruct (step_keeps_calls i s) as [Ha Hl]; [by rewrite Hi|];
         unfold ringing; by rewrite Ha, Hl).
  - (* call:invite *)
    unfold step. rewrite Hi. unfold on_call_invite.
    destruct (activeCalls s !! c) eqn:Hc; simpl; [done|]. split; simpl.
    + rewrite lookup_insert_is_Some. destruct (decide (c = callId)); eauto.
    + by apply open_at_app.
  - (* call:join *)
    unfold step. rewrite Hi. unfold on_call_join.
    destruct (activeCalls s !! c) eqn:Hc; simpl; [|done]. split; simpl.
    + rewrite lookup_insert_is_Some. destruct (decide (c = callId)); eauto.
    + by apply update_log_open_kept.
  - (* call:leave of another call *)
    simpl in Hev. apply bool_decide_eq_false in Hev.
    unfold step. rewrite Hi. unfold on_call_leave.
    destruct (activeCalls s !! c) as [st|] eqn:Hc; simpl; [|done].
    destruct (jsset_delete (from i) (call_participants st)); simpl; split; simpl.
    + by rewrite lookup_delete_ne, lookup_insert_ne.
    + by apply update_log_open_other.
    + by rewrite lookup_insert_ne.
    + done.
  - (* call:endAll of another call *)
    simpl in Hev. apply bool_decide_eq_false in Hev.
    unfold step. rewrite Hi. unfold on_call_endAll.
    destruct (activeCalls s !! c) as [st|] eqn:Hc; simpl; [|done]. split; simpl.
    + by rewrite lookup_delete_ne.
    + by apply update_log_open_other.
Qed.

Lemma run_keeps_ringing n callId inputs : ∀ s,
  Forall (λ i, ends_call callId (event i) = false) inputs →
  ringing n callId s → ringing n callId (run inputs s).1.
Proof.
  induction inputs as [|i inputs IH]; intros s Hev Hr; [done|].
  apply Forall_cons in Hev as [Hi Hev]. simpl.
  pose proof (step_keeps_ringing n callId i s Hi Hr) as Hstep.
  specialize (IH _ Hev Hstep).
  destruct (step i s) as [s1 o1]. simpl in *. by destruct (run inputs s1).
Qed.

(** C1 (amended): the server runs no ring timeout.  A 1:1 invite (one
    with a non-empty [to]) for a call id that is not active creates the
    session with no participants and appends its log entry with no end
    time; its only effect is the invitation sent to the addressee, never
    to the initiator.  After that, through any sequence of events that
    holds no [call:leave] and no [call:endAll] of this call id, however
    late they come, the session stays in the active set and its log
    entry stays without an end time. *)
Theorem invite_starts_no_timeout sid callId room type to t now later inputs s :
  activeCalls s !! callId = None →
  nonempty to = Some t →
  Forall (λ i, ends_call callId (event i) = false) inputs →
  let r := on_call_invite sid callId room type to now later s in
  let n := length (callLogs s) in
  activeCalls r.1 !! callId = Some (mkCall room type [] now sid)
  ∧ callLogs r.1 = callLogs s ++ [mkLog callId room type later None sid []]
  ∧ r.2 = [Emit (ToRoomFrom sid t) "call:invite"
                (PCallInvite callId type sid (user_name <$> jsmap_get sid (users s)))]
  ∧ (∀ s', events_reaching s' sid r.2 = [])
  ∧ is_Some (activeCalls (run inputs r.1).1 !! callId)
  ∧ open_at n callId (callLogs (run inputs r.1).1).
Proof.
  intros Hnew Hto Hev r n.
  assert (r.1 = set_callLogs (callLogs s ++ [mkLog callId room type later None sid []])
                  (set_activeCalls
                     (<[callId := mkCall room type [] now sid]> (activeCalls s)) s))
    as Hr1 by (subst r; unfold on_call_invite; by rewrite Hnew).
  assert (r.2 = [Emit (ToRoomFrom sid t) "call:invite"
                (PCallInvite callId type sid (user_name <$> jsmap_get sid (users s)))])
    as Hr2 by (subst r; rewrite on_call_invite_out; unfold invite_audience; by rewrite Hto).
  assert (ringing n callId r.1) as Hring.
  { rewrite Hr1. split; simpl.
    - rewrite lookup_insert_eq. eauto.
    - exists (mkLog callId room type later None sid []). split; [|done].
      subst n. by apply list_lookup_middle. }
  split; [rewrite Hr1; simpl; apply lookup_insert_eq|].
  split; [by rewrite Hr1|]. split; [done|]. split.
  - intros s'. rewrite Hr2. unfold events_reaching. simpl.
    rewrite bool_decide_eq_false_2; [done|].
    rewrite list_elem_of_filter. naive_solver.
  - apply (run_keeps_ringing n callId inputs r.1 Hev Hring).
Qed.
End NoTimeout.

Lemma invite_starts_no_timeout_witness :
  let s := (run (connections ["A"; "B"]) (initial false)).1 in
  let inputs := [mkInput "B" 20000 20000 (Message "still here" None MongoOff);
                 mkInput "A" 90000 90000 (JoinRoom (Some "lobby"))] in
  let r := on_call_invite "A" "c1" None Video (Some "B") 1000 1001 s in
  let n := length (callLogs s) in
  activeCalls r.1 !! "c1" = Some (mkCall None Video [] 1000 "A")
  ∧ callLogs r.1 = callLogs s ++ [mkLog "c1" None Video 1001 None "A" []]
  ∧ r.2 = [Emit (ToRoomFrom "A" "B") "call:invite"
                (PCallInvite "c1" Video "A" (user_name <$> jsmap_get "A" (users s)))]
  ∧ (∀ s', events_reaching s' "A" r.2 = [])
  ∧ is_Some (activeCalls (run inputs r.1).1 !! "c1")
  ∧ open_at n "c1" (callLogs (run inputs r.1).1).
Proof.
  apply (invite_starts_no_timeout "A" "c1" None Video (Some "B") "B" 1000 1001
           [mkInput "B" 20000 20000 (Message "still here" None MongoOff);
            mkInput "A" 90000 90000 (JoinRoom (Some "lobby"))]).
  - reflexivity.
  - reflexivity.
  - repeat constructor.
Defined.

(** C1 as stated fails: A invites B to the 1:1 video call c1 at time 1000
    and B never answers.  The invite reaches B alone.  When A's next event
    is handled 89 seconds later, c1 is still in the active set, its log
    entry has no end time, and the only event that has reached A is that
    ['message']: no missed-call notice, no tear-down. *)
Lemma ring_timeout_counterexample :
  let s0 := (run (connections ["A"; "B"]) (initial false)).1 in
  let r1 := step (mkInput "A" 1000 1000 (CallInvite "c1" None Video (Some "B"))) s0 in
  let r2 := step (mkInput "A" 90000 90000 (Message "hello?" None MongoOff)) r1.1 in
  reached_by r1.1 "call:invite" r1.2 = ["B"]
  ∧ events_reaching r1.1 "A" r1.2 = []
  ∧ events_reaching r2.1 "A" r2.2 = ["message"]
  ∧ (call_participants <$> activeCalls r2.1 !! "c1") = Some []
  ∧ (log_endedAt <$> find_log "c1" (callLogs r2.1)) = Some None.
Proof. vm_compute. done. Qed.

Section Unbounded.
Implicit Types (s : Server) (logs : list CallLog).

Lemma set_log_participants_id ps l :
  log_callId (set_log_participants ps l) = log_callId l.
Proof. done. Qed.

(** No handler removes a log entry or moves one: the call ids of the log
    before are a prefix of the call ids of the log after. *)
Lemma step_log_ids i s :
  ∃ extra, map log_callId (callLogs (step i s).1) = map log_callId (callLogs s) ++ extra.
Proof.
  event_cases i Hi;
    try (destruct (step_keeps_calls i s) as [_ Hl]; [by rewrite Hi|];
         exists []; by rewrite Hl, app_nil_r);
    unfold step; rewrite Hi.
  - unfold on_call_invite. destruct (activeCalls s !! c); simpl.
    + exists []. by rewrite app_nil_r.
    + exists [c]. by rewrite map_app.
  - unfold on_call_join. destruct (activeCalls s !! c); simpl;
      exists []; rewrite app_nil_r; [|done].
    by apply update_log_ids.
  - unfold on_call_leave. destruct (activeCalls s !! c) as [st|]; simpl;
      exists []; rewrite app_nil_r; [|done].
    destruct (jsset_delete (from i) (call_participants st)); simpl; [|done].
    apply update_log_ids, finalized_id.
  - unfold on_call_endAll. destruct (activeCalls s !! c) as [st|]; simpl;
      exists []; rewrite app_nil_r; [|done].
    apply update_log_ids, finalized_id.
Qed.

Lemma run_log_ids inputs : ∀ s,
  ∃ extra, map log_callId (callLogs (run inputs s).1) = map log_callId (callLogs s) ++ extra.
Proof.
  induction inputs as [|i inputs IH]; intros s; simpl.
  - exists []. by rewrite app_nil_r.
  - destruct (step_log_ids i s) as [e1 H1].
    destruct (step i s) as [s1 o1]. simpl in H1.
    destruct (IH s1) as [e2 H2].
    destruct (run inputs s1) as [s2 o2]. simpl in *.
    exists (e1 ++ e2). by rewrite H2, H1, app_assoc.
Qed.

(** Invites to call ids that are new and differ from one another append
    one entry each, in order. *)
Lemma invites_append inputs : ∀ s,
  Forall (λ i, is_invite (event i) = true) inputs →
  NoDup (invite_ids inputs) →
  Forall (λ c, activeCalls s !! c = None) (invite_ids inputs) →
  map log_callId (callLogs (run inputs s).1)
  = map log_callId (callLogs s) ++ invite_ids inputs.
Proof.
  induction inputs as [|i inputs IH]; intros s Hinv Hnd Hnew; simpl.
  - by rewrite app_nil_r.
  - apply Forall_cons in Hinv as [Hi Hinv].
    unfold invite_ids in *. simpl in *. unfold step.
    destruct (event i) as [| | | | | | | | | | | | |c room t to| | |]; try discriminate.
    simpl in *. apply NoDup_cons in Hnd as [Hc Hnd].
    apply Forall_cons in Hnew as [Hcnew Hnew].
    unfold on_call_invite. rewrite Hcnew. simpl.
    match goal with |- context [run inputs ?s1] => specialize (IH s1 Hinv Hnd) end.
    destruct (run inputs _) as [s2 o2]. simpl in *.
    rewrite IH.
    + by rewrite map_app, <- app_assoc.
    + apply Forall_forall. intros c' Hc'. rewrite lookup_insert_ne by set_solver.
      by eapply Forall_forall in Hnew.
Qed.

Lemma invite_ids_length inputs :
  Forall (λ i, is_invite (event i) = true) inputs →
  length (invite_ids inputs) = length inputs.
Proof.
  induction 1 as [|i inputs Hi _ IH]; [done|].
  destruct (event i) eqn:He; try discriminate.
  unfold invite_ids. simpl. rewrite He. simpl. f_equal. apply IH.
Qed.

(** C4 (amended): the call log is an ordered sequence without a capacity.
    Each invite to a call id that is not active appends one entry at the
    end: after [N] invites to [N] new, different call ids the log holds its
    former entries followed by one entry per invite, in invite order, [N]
    more than before.  No event evicts or moves an entry: through any
    further events the log only grows at its end, entries being updated in
    place.  [GET /calls] answers with the whole log. *)
Theorem call_log_never_evicts inputs more req s :
  Forall (λ i, is_invite (event i) = true) inputs →
  NoDup (invite_ids inputs) →
  Forall (λ c, activeCalls s !! c = None) (invite_ids inputs) →
  let s1 := (run inputs s).1 in
  let s2 := (run more s1).1 in
  map log_callId (callLogs s1) = map log_callId (callLogs s) ++ invite_ids inputs
  ∧ length (callLogs s1) = (length (callLogs s) + length inputs)%nat
  ∧ (∃ extra, map log_callId (callLogs s2) = map log_callId (callLogs s1) ++ extra)
  ∧ get_calls s2 req = mkResponse 200 (BLogs (callLogs s2)).
Proof.
  intros Hinv Hnd Hnew s1 s2.
  pose proof (invites_append inputs s Hinv Hnd Hnew) as Hids. fold s1 in Hids.
  split; [done|]. split; [|split; [apply run_log_ids|done]].
  apply (f_equal length) in Hids.
  rewrite length_app, !length_map, invite_ids_length in Hids; done.
Qed.
End Unbounded.

Lemma call_log_never_evicts_witness :
  let inputs := [mkInput "A" 1000 1001 (CallInvite "c1" None Video (Some "B"));
                 mkInput "B" 2000 2001 (CallInvite "c2" (Some "lobby") Audio None)] in
  let more := [mkInput "A" 3000 3000 (CallJoin "c1");
               mkInput "A" 4000 4000 (CallEndAll "c1");
               mkInput "A" 5000 5001 (CallInvite "c1" None Video (Some "B"))] in
  let s := (run (connections ["A"; "B"]) (initial false)).1 in
  let s1 := (run inputs s).1 in
  let s2 := (run more s1).1 in
  map log_callId (callLogs s1) = map log_callId (callLogs s) ++ invite_ids inputs
  ∧ length (callLogs s1) = (length (callLogs s) + length inputs)%nat
  ∧ (∃ extra, map log_callId (callLogs s2) = map log_callId (callLogs s1) ++ extra)
  ∧ get_calls s2 (mkRequest None None) = mkResponse 200 (BLogs (callLogs s2)).
Proof.
  apply (call_log_never_evicts
           [mkInput "A" 1000 1001 (CallInvite "c1" None Video (Some "B"));
            mkInput "B" 2000 2001 (CallInvite "c2" (Some "lobby") Audio None)]).
  - repeat constructor.
  - apply (bool_decide_unpack _). vm_compute. exact I.
  - repeat constructor.
Defined.

(** C4 as stated fails for the capacity 500: after 501 invites to
    different call ids the log holds 501 entries, the oldest one still
    first, and [GET /calls] returns all of them. *)
Lemma call_log_capacity_counterexample :
  let s := (run (numbered_invites "A" 501) (initial false)).1 in
  length (callLogs s) = 501%nat
  ∧ (log_callId <$> head (callLogs s)) = Some "0"
  ∧ (log_callId <$> last (callLogs s)) = Some "500"
  ∧ get_calls s (mkRequest None None) = mkResponse 200 (BLogs (callLogs s)).
Proof. vm_compute. done. Qed.

(** ** The HTTP routes *)

Section Http.
Variable verify : string → option JwtClaims.

(** No header, no token: [verifyJwt] gives [null] without asking the
    auth service. *)
Lemma verifyJwt_no_header : verifyJwt verify None = None.
Proof. done. Qed.

(** C8 (amended): [GET /calls] is registered without [requireAuth()]: a
    request without a verified bearer token gets status 200 and the whole
    call log.  It is the contacts routes, which run [requireAuth()] first,
    that answer such a request with 401 [unauthorized], whatever handler
    stands behind the middleware. *)
Theorem calls_route_needs_no_token contacts s m req :
  verifyJwt verify (authorization req) = None →
  app verify contacts s GET "/calls" req = Some (mkResponse 200 (BLogs (callLogs s)))
  ∧ app verify contacts s m "/contacts" req = Some (mkResponse 401 (BError "unauthorized")).
Proof.
  intros Hnone. split; [done|].
  unfold app, requireAuth. simpl. by rewrite Hnone.
Qed.
End Http.

Lemma calls_route_needs_no_token_witness :
  let verify := λ token, if bool_decide (token = "good") then Some (mkClaims "u1" 0) else None in
  let contacts := λ (_ : Method) (_ : Request), mkResponse 200 (BLogs []) in
  let s := (run (numbered_invites "A" 2) (initial false)).1 in
  let req := mkRequest (Some "Bearer bad") None in
  app verify contacts s GET "/calls" req = Some (mkResponse 200 (BLogs (callLogs s)))
  ∧ app verify contacts s DELETE "/contacts" req
    = Some (mkResponse 401 (BError "unauthorized")).
Proof.
  apply (calls_route_needs_no_token
           (λ token, if bool_decide (token = "good") then Some (mkClaims "u1" 0) else None)).
  reflexivity.
Defined.

(** C8 as stated fails: a [GET /calls] request with no [Authorization]
    header, with an auth service that verifies nothing, is answered 200
    with the call log, not 401. *)
Lemma calls_without_token_counterexample :
  let verify := λ _ : string, @None JwtClaims in
  let contacts := λ (_ : Method) (_ : Request), mkResponse 200 (BLogs []) in
  let s := (run (numbered_invites "A" 2) (initial false)).1 in
  let req := mkRequest None None in
  verifyJwt verify (authorization req) = None
  ∧ app verify contacts s GET "/calls" req
    = Some (mkResponse 200 (BLogs [mkLog "0" None Audio 0 None "A" [];
                                   mkLog "1" None Audio 1 None "A" []]))
  ∧ app verify contacts s GET "/calls" req
    ≠ Some (mkResponse 401 (BError "unauthorized")).
Proof. vm_compute. split; [done|]. split; [done|]. discriminate. Qed.

(** * Further properties of the handlers *)

(** Unfold the handler at hand and split on the tests it makes. *)
Ltac handler_cases :=
  unfold on_connection, on_join, on_joinRoom, on_leaveRoom, on_message,
    on_disconnect, on_webrtc_offer, on_webrtc_answer, on_webrtc_ice,
    on_webrtc_end, on_call_busy, on_call_upgrade, on_call_upgrade_response,
    relay, on_call_invite, on_call_join, on_call_leave, on_call_endAll;
  simpl; repeat case_match; simpl.

(** ** The in-memory message store *)

Section Stored.
Implicit Types (s : Server).

Lemma cap_last_length {A} n (l : list A) : (length (cap_last n l) ≤ n)%nat.
Proof.
  unfold cap_last. destruct (n <? length l)%nat eqn:Hn.
  - apply Nat.ltb_lt in Hn. rewrite length_drop. lia.
  - apply Nat.ltb_ge in Hn. lia.
Qed.

Lemma cap_last_suffix {A} n (l : list A) : cap_last n l `suffix_of` l.
Proof.
  unfold cap_last. destruct (n <? length l)%nat; [apply suffix_drop|done].
Qed.

Lemma cap_last_last {A} n (l : list A) : (0 < n)%nat → last (cap_last n l) = last l.
Proof.
  intros Hn. unfold cap_last. destruct (n <? length l)%nat eqn:Hl; [|done].
  apply Nat.ltb_lt in Hl. rewrite !last_lookup, length_drop, lookup_drop.
  f_equal. lia.
Qed.

(** Only a ['message'] stored in memory changes [inMemMessages]. *)
Lemma step_stored i s :
  inMemMessages (step i s).1
  = match event i with
    | Message text room MongoOff =>
        cap_last 500 (inMemMessages s
                      ++ [mkStored (sender_name (from i) s) text (at1 i)
                                   (message_room (from i) room s)])
    | _ => inMemMessages s
    end.
Proof. unfold step. event_cases i Hi; by handler_cases. Qed.

Lemma run_stored_bounded inputs : ∀ s,
  (length (inMemMessages s) ≤ 500)%nat →
  (length (inMemMessages (run inputs s).1) ≤ 500)%nat.
Proof.
  induction inputs as [|i inputs IH]; intros s Hs; [done|]. simpl.
  assert (length (inMemMessages (step i s).1) ≤ 500)%nat as Hstep.
  { rewrite step_stored. destruct (event i); try done.
    destruct store; try done. apply cap_last_length. }
  specialize (IH _ Hstep).
  destruct (step i s) as [s1 o1]. simpl in *. by destruct (run inputs s1).
Qed.

(** X1: whatever events the server has handled since start-up, the
    in-memory message store holds at most 500 messages; a message stored
    in memory is the last of the store afterwards, and the store is then a
    suffix of the former store followed by the new message: what is
    dropped is dropped from the old end. *)
Theorem inMemMessages_bounded with_redis inputs sid text room now :
  let s := (run inputs (initial with_redis)).1 in
  let m := mkStored (sender_name sid s) text now (message_room sid room s) in
  let s' := (on_message sid text room MongoOff now s).1 in
  (length (inMemMessages s) ≤ 500)%nat
  ∧ (length (inMemMessages s') ≤ 500)%nat
  ∧ last (inMemMessages s') = Some m
  ∧ inMemMessages s' `suffix_of` inMemMessages s ++ [m].
Proof.
  intros s m s'. split; [apply run_stored_bounded; simpl; lia|].
  subst s'. simpl. split; [apply cap_last_length|]. split.
  - rewrite cap_last_last by lia. apply last_snoc.
  - apply cap_last_suffix.
Qed.
End Stored.

(** ** The user registry *)

Section Registry.
Implicit Types (s : Server) (us : jsmap User).

Lemma jsmap_get_set_eq {V} k (v : V) m : jsmap_get k (jsmap_set k v m) = Some v.
Proof.
  induction m as [|[k' v'] m IH]; simpl.
  - by rewrite bool_decide_eq_true_2.
  - case_bool_decide as Hk; simpl.
    + by rewrite bool_decide_eq_true_2.
    + by rewrite bool_decide_eq_false_2.
Qed.

Lemma jsmap_get_set_ne {V} k k' (v : V) m :
  k ≠ k' → jsmap_get k' (jsmap_set k v m) = jsmap_get k' m.
Proof.
  intros Hne. induction m as [|[k0 v0] m IH]; simpl.
  - by rewrite bool_decide_eq_false_2.
  - case_bool_decide as Hk; simpl.
    + subst. by rewrite !bool_decide_eq_false_2.
    + by rewrite IH.
Qed.

Lemma jsmap_get_delete_eq {V} k (m : jsmap V) : jsmap_get k (jsmap_delete k m) = None.
Proof.
  unfold jsmap_delete, jsmap in *. induction m as [|[k0 v0] m IH]; [done|].
  rewrite filter_cons. simpl. case_decide as Hk; simpl; [|done].
  by rewrite bool_decide_eq_false_2.
Qed.

Lemma jsmap_get_delete_ne {V} k k' (m : jsmap V) :
  k ≠ k' → jsmap_get k' (jsmap_delete k m) = jsmap_get k' m.
Proof.
  intros Hne. unfold jsmap_delete, jsmap in *. induction m as [|[k0 v0] m IH]; [done|].
  rewrite filter_cons. simpl. case_decide as Hk; simpl.
  - by rewrite IH.
  - simpl in Hk. assert (k0 = k) as -> by (by destruct (decide (k0 = k))). by rewrite bool_decide_eq_false_2.
Qed.

Lemma jsmap_get_elem {V} k (v : V) m : jsmap_get k m = Some v → (k, v) ∈ m.
Proof.
  induction m as [|[k0 v0] m IH]; [done|]. simpl.
  case_bool_decide as Hk.
  - intros [= ->]. subst. apply list_elem_of_here.
  - intros H. apply list_elem_of_further. by apply IH.
Qed.

Lemma jsmap_set_keys {V} k (v : V) m :
  map fst (jsmap_set k v m)
  = if bool_decide (k ∈ map fst m) then map fst m else map fst m ++ [k].
Proof.
  induction m as [|[k0 v0] m IH]; simpl; [done|].
  destruct (decide (k0 = k)) as [->|Hk].
  - rewrite !bool_decide_eq_true_2; [done|apply list_elem_of_here|done].
  - rewrite (bool_decide_eq_false_2 (k0 = k)) by done. simpl. rewrite IH.
    destruct (decide (k ∈ map fst m)) as [Hin|Hin].
    + rewrite !bool_decide_eq_true_2; [done|by apply list_elem_of_further|done].
    + rewrite !bool_decide_eq_false_2; [done| |done].
      intros [?|?]%elem_of_cons; congruence.
Qed.

Lemma jsmap_set_elem {V} k (v : V) m kv :
  kv ∈ jsmap_set k v m → kv = (k, v) ∨ kv ∈ m.
Proof.
  induction m as [|[k0 v0] m IH]; simpl.
  - intros ->%list_elem_of_singleton. by left.
  - case_bool_decide as Hk.
    + intros [->|H]%elem_of_cons; [by left|]. right. by apply list_elem_of_further.
    + intros [->|H]%elem_of_cons; [right; apply list_elem_of_here|].
      destruct (IH H) as [->|Hin]; [by left|]. right. by apply list_elem_of_further.
Qed.

Lemma users_wf_set k u us :
  user_id u = k → users_wf us → users_wf (jsmap_set k u us).
Proof.
  intros Hid [Hnd Hids]. split.
  - rewrite jsmap_set_keys. case_bool_decide as Hin; [done|].
    apply NoDup_app. split; [done|]. split; [|apply NoDup_singleton].
    intros x Hx ->%list_elem_of_singleton. done.
  - apply Forall_forall. intros kv [->|Hin]%jsmap_set_elem; [done|].
    by eapply Forall_forall in Hids.
Qed.

Lemma users_wf_delete k us : users_wf us → users_wf (jsmap_delete k us).
Proof.
  intros [Hnd Hids]. unfold jsmap_delete. split.
  - eapply sublist_NoDup; [done|]. apply fmap_sublist, sublist_filter.
  - apply Forall_forall. intros kv [_ Hin]%list_elem_of_filter.
    by eapply Forall_forall in Hids.
Qed.

(** Only ['join'] and ['disconnect'] change the registry. *)
Lemma step_users i s :
  users (step i s).1
  = match event i with
    | Join p => jsmap_set (from i) (mkUser (from i) (join_name p) (join_userId p)) (users s)
    | Disconnect => jsmap_delete (from i) (users s)
    | _ => users s
    end.
Proof. unfold step. event_cases i Hi; by handler_cases. Qed.

Lemma run_users_wf inputs : ∀ s, users_wf (users s) → users_wf (users (run inputs s).1).
Proof.
  induction inputs as [|i inputs IH]; intros s Hs; [done|]. simpl.
  assert (users_wf (users (step i s).1)) as Hstep.
  { rewrite step_users. destruct (event i); try done.
    - by apply users_wf_set.
    - by apply users_wf_delete. }
  specialize (IH _ Hstep).
  destruct (step i s) as [s1 o1]. simpl in *. by destruct (run inputs s1).
Qed.

(** X2: whatever events the server has handled since start-up, the
    registry holds each socket at most once, under its own id: the
    ['users'] list the server broadcasts never names a socket twice, and
    the user found for a socket carries that socket's id. *)
Theorem users_registry_wf with_redis inputs :
  let s := (run inputs (initial with_redis)).1 in
  NoDup (map user_id (jsmap_values (users s)))
  ∧ ∀ sid u, jsmap_get sid (users s) = Some u → user_id u = sid.
Proof.
  intros s.
  assert (users_wf (users s)) as [Hnd Hids].
  { apply run_users_wf. split; [apply NoDup_nil_2|apply Forall_nil_2]. }
  split.
  - assert (map user_id (jsmap_values (users s)) = map fst (users s)) as ->; [|done].
    unfold jsmap_values. rewrite <- list_fmap_compose.
    apply Forall_fmap_ext_1. eapply Forall_impl; [exact Hids|]. by intros [k u].
  - intros sid u Hget. apply jsmap_get_elem in Hget.
    rewrite Forall_forall in Hids. by apply (Hids (sid, u)).
Qed.

Lemma run_sender_name sid inputs : ∀ s,
  Forall (λ i, registers sid i = false) inputs →
  jsmap_get sid (users (run inputs s).1) = jsmap_get sid (users s).
Proof.
  induction inputs as [|i inputs IH]; intros s Hreg; [done|].
  apply Forall_cons in Hreg as [Hi Hreg]. simpl.
  assert (jsmap_get sid (users (step i s).1) = jsmap_get sid (users s)) as Hstep.
  { rewrite step_users. unfold registers in Hi.
    destruct (event i); try done; rewrite andb_true_r in Hi;
      apply bool_decide_eq_false in Hi.
    - by apply jsmap_get_set_ne.
    - by apply jsmap_get_delete_ne. }
  specialize (IH (step i s).1 Hreg). rewrite Hstep in IH.
  destruct (step i s) as [s1 o1]. simpl in *. by destruct (run inputs s1).
Qed.

(** X3: once a socket has sent ['join'], every chat message it sends
    carries the name it registered (["Anonymous"] if the ['join'] object had
    no name), whatever the server handles in between, as long as the
    socket itself neither sends ['join'] again nor disconnects. *)
Theorem message_carries_registered_name sid p inputs text room store now s :
  Forall (λ i, registers sid i = false) inputs →
  let s1 := (run inputs (on_join sid p s).1).1 in
  (on_message sid text room store now s1).2
  = [Emit (match nonempty (message_room sid room s1) with
           | Some r => ToRoom r
           | None => ToAll
           end)
          "message" (PMessage sid (join_name p) text now (message_room sid room s1))].
Proof.
  intros Hreg s1.
  assert (sender_name sid s1 = join_name p) as Hname.
  { unfold sender_name. subst s1. rewrite run_sender_name by done.
    change (on_join sid p s) with (step (mkInput sid 0 0 (Join p)) s).
    rewrite step_users. simpl. by rewrite jsmap_get_set_eq. }
  unfold on_message. simpl. by rewrite Hname.
Qed.
End Registry.

Lemma message_carries_registered_name_witness :
  let s := (run (connections ["A"; "B"]) (initial false)).1 in
  let inputs := [mkInput "B" 5 5 (Join (JoinName "bob"));
                 mkInput "A" 6 6 (JoinRoom (Some "lobby"));
                 mkInput "B" 7 7 Disconnect] in
  let s1 := (run inputs (on_join "A" (JoinObject None None) s).1).1 in
  (on_message "A" "hi" None MongoOff 9 s1).2
  = [Emit (match nonempty (message_room "A" None s1) with
           | Some r => ToRoom r
           | None => ToAll
           end)
          "message" (PMessage "A" (join_name (JoinObject None None)) "hi" 9
                              (message_room "A" None s1))].
Proof.
  apply (message_carries_registered_name "A" (JoinObject None None)
           [mkInput "B" 5 5 (Join (JoinName "bob"));
            mkInput "A" 6 6 (JoinRoom (Some "lobby"));
            mkInput "B" 7 7 Disconnect]).
  repeat constructor.
Defined.

(** ** Disconnects and presence *)

Section Disconnect.
Implicit Types (s : Server).

(** X4: a disconnect takes the socket out of the registry, and with it
    out of the namespace and of every room; the other sockets keep their
    registry entries, their connection and their rooms.  ['user:leave'] is
    sent only for a socket that had registered.  The room recorded for
    the socket in [userRooms] is not cleared. *)
Theorem disconnect_cleans_registry sid s :
  let s' := (on_disconnect sid s).1 in
  (jsmap_get sid (users s') = None ∧ (sid ∉ sockets s') ∧ ∀ r, (r, sid) ∉ rooms s')
  ∧ (∀ x, x ≠ sid →
        jsmap_get x (users s') = jsmap_get x (users s)
        ∧ (x ∈ sockets s' ↔ x ∈ sockets s)
        ∧ ∀ r, (r, x) ∈ rooms s' ↔ (r, x) ∈ rooms s)
  ∧ emitted_events (on_disconnect sid s).2
    = match jsmap_get sid (users s) with
      | Some _ => ["user:leave"; "users"]
      | None => ["users"]
      end
  ∧ userRooms s' = userRooms s.
Proof.
  intros s'.
  assert (users s' = jsmap_delete sid (users s)) as Hu
    by (subst s'; by handler_cases).
  assert (sockets s' = jsset_delete sid (sockets s)) as Hs
    by (subst s'; by handler_cases).
  assert (rooms s' = filter (λ m, m.2 ≠ sid) (rooms s)) as Hr
    by (subst s'; by handler_cases).
  rewrite Hu, Hs, Hr. unfold jsset_delete. repeat split.
  - apply jsmap_get_delete_eq.
  - rewrite list_elem_of_filter. naive_solver.
  - intros r. rewrite list_elem_of_filter. naive_solver.
  - by apply jsmap_get_delete_ne.
  - rewrite list_elem_of_filter. naive_solver.
  - rewrite list_elem_of_filter. naive_solver.
  - rewrite list_elem_of_filter. naive_solver.
  - rewrite list_elem_of_filter. naive_solver.
  - unfold on_disconnect, emitted_events. simpl.
    destruct (jsmap_get sid (users s)) as [u|]; simpl;
      destruct (redis s); simpl; try done;
      repeat case_match; done.
  - subst s'. by handler_cases.
Qed.

Lemma on_disconnect_online sid s :
  onlineUserIds (on_disconnect sid s).1
  = match nonempty (jsmap_get sid (users s) ≫= user_userId) with
    | Some u => onlineUserIds s ∖ {[u]}
    | None => onlineUserIds s
    end.
Proof. by handler_cases. Qed.

(** X5: presence by user id follows the last event, not the number of
    sessions.  When two sockets register with the same non-empty user id,
    the id is online; when one of them disconnects, the id is taken out
    of [onlineUserIds] although the other socket is still registered with
    it. *)
Theorem presence_dropped_with_first_disconnect a b na nb uid s :
  a ≠ b →
  uid ≠ "" →
  let s1 := (on_join a (JoinObject na (Some uid)) s).1 in
  let s2 := (on_join b (JoinObject nb (Some uid)) s1).1 in
  let s3 := (on_disconnect a s2).1 in
  (uid ∈ onlineUserIds s2)
  ∧ (uid ∉ onlineUserIds s3)
  ∧ (user_userId <$> jsmap_get b (users s3)) = Some (Some uid).
Proof.
  intros Hab Huid s1 s2 s3.
  destruct uid as [|c0 uid']; [done|]. set (uid := String c0 uid') in *.
  assert (users s1 = jsmap_set a (mkUser a (join_name (JoinObject na (Some uid))) (Some uid)) (users s))
    as Hu1 by (subst s1; by handler_cases).
  assert (users s2 = jsmap_set b (mkUser b (join_name (JoinObject nb (Some uid))) (Some uid)) (users s1))
    as Hu2 by (subst s2; by handler_cases).
  assert (onlineUserIds s2 = {[uid]} ∪ onlineUserIds s1) as Ho2.
  { subst s2. unfold on_join. by simpl. }
  assert (jsmap_get a (users s2) = Some (mkUser a (join_name (JoinObject na (Some uid))) (Some uid)))
    as Ha2 by (by rewrite Hu2, jsmap_get_set_ne, Hu1, jsmap_get_set_eq).
  assert (onlineUserIds s3 = onlineUserIds s2 ∖ {[uid]}) as Ho3.
  { subst s3. rewrite on_disconnect_online, Ha2. by simpl. }
  assert (users s3 = jsmap_delete a (users s2)) as Hu3
    by (subst s3; by handler_cases).
  split; [rewrite Ho2; set_solver|]. split; [rewrite Ho3; set_solver|].
  by rewrite Hu3, jsmap_get_delete_ne, Hu2, jsmap_get_set_eq.
Qed.
End Disconnect.

Lemma presence_dropped_with_first_disconnect_witness :
  let s := (run (connections ["A"; "B"]) (initial false)).1 in
  let s1 := (on_join "A" (JoinObject (Some "ann") (Some "u1")) s).1 in
  let s2 := (on_join "B" (JoinObject (Some "ann") (Some "u1")) s1).1 in
  let s3 := (on_disconnect "A" s2).1 in
  ("u1" ∈ onlineUserIds s2)
  ∧ ("u1" ∉ onlineUserIds s3)
  ∧ (user_userId <$> jsmap_get "B" (users s3)) = Some (Some "u1").
Proof.
  apply (presence_dropped_with_first_disconnect "A" "B" (Some "ann") (Some "ann") "u1").
  - discriminate.
  - discriminate.
Defined.

(** ** JavaScript sets *)

Section Sets.

Lemma NoDup_jsset_add x (l : list string) : NoDup l → NoDup (jsset_add x l).
Proof.
  intros Hl. unfold jsset_add. case_bool_decide as Hin; [done|].
  apply NoDup_app. split; [done|]. split; [|apply NoDup_singleton].
  by intros y Hy ->%list_elem_of_singleton.
Qed.
End Sets.

(** ** Participants *)

Section Participants.
Implicit Types (s : Server) (logs : list CallLog) (ps : list string).

Lemma jsset_add_elem x y ps : y ∈ jsset_add x ps ↔ y = x ∨ y ∈ ps.
Proof.
  unfold jsset_add. case_bool_decide as Hin.
  - naive_solver.
  - rewrite elem_of_app, list_elem_of_singleton. naive_solver.
Qed.

Lemma jsset_add_idem x ps : jsset_add x (jsset_add x ps) = jsset_add x ps.
Proof.
  unfold jsset_add at 1. rewrite bool_decide_eq_true_2; [done|].
  apply jsset_add_elem. by left.
Qed.

Lemma jsset_fold_NoDup arr : ∀ acc,
  NoDup acc → NoDup (fold_left (λ acc x, jsset_add x acc) arr acc).
Proof.
  induction arr as [|x arr IH]; intros acc Hacc; [done|].
  simpl. by apply IH, NoDup_jsset_add.
Qed.

Lemma jsset_fold_elem y arr : ∀ acc,
  y ∈ fold_left (λ acc x, jsset_add x acc) arr acc ↔ y ∈ acc ∨ y ∈ arr.
Proof.
  induction arr as [|x arr IH]; intros acc; simpl.
  - rewrite elem_of_nil. naive_solver.
  - rewrite IH, jsset_add_elem, elem_of_cons. naive_solver.
Qed.

Lemma jsset_fold_id arr : ∀ acc,
  NoDup (acc ++ arr) → fold_left (λ acc x, jsset_add x acc) arr acc = acc ++ arr.
Proof.
  induction arr as [|x arr IH]; intros acc Hnd; simpl.
  - by rewrite app_nil_r.
  - assert (jsset_add x acc = acc ++ [x]) as ->.
    { unfold jsset_add. rewrite bool_decide_eq_false_2; [done|].
      apply NoDup_app in Hnd as (_ & Hdis & _). intros Hin.
      apply (Hdis x Hin), list_elem_of_here. }
    rewrite IH; rewrite <- app_assoc; done.
Qed.

Lemma jsset_of_array_NoDup arr : NoDup (jsset_of_array arr).
Proof. apply jsset_fold_NoDup, NoDup_nil_2. Qed.

Lemma jsset_of_array_elem y arr : y ∈ jsset_of_array arr ↔ y ∈ arr.
Proof. unfold jsset_of_array. rewrite jsset_fold_elem, elem_of_nil. naive_solver. Qed.

(** [Array.from(new Set(arr))] gives back an array without duplicates. *)
Lemma jsset_of_array_id arr : NoDup arr → jsset_of_array arr = arr.
Proof. intros Hnd. by apply (jsset_fold_id arr []). Qed.

Lemma Forall_update_log (P : CallLog → Prop) c f logs :
  (∀ l, P l → P (f l)) → Forall P logs → Forall P (update_log c f logs).
Proof.
  intros Hf. induction 1 as [|l logs Hl Hlogs IH]; simpl; [done|].
  case_bool_decide; constructor; auto.
Qed.

Lemma update_log_idem c f logs :
  (∀ l, log_callId (f l) = log_callId l) →
  (∀ l, f (f l) = f l) →
  update_log c f (update_log c f logs) = update_log c f logs.
Proof.
  intros Hid Hff. induction logs as [|l logs IH]; simpl; [done|].
  destruct (decide (log_callId l = c)) as [Hc|Hc].
  - rewrite (bool_decide_eq_true_2 _ Hc). simpl.
    rewrite bool_decide_eq_true_2 by (by rewrite Hid). by rewrite Hff.
  - rewrite (bool_decide_eq_false_2 _ Hc). simpl.
    rewrite (bool_decide_eq_false_2 _ Hc). by rewrite IH.
Qed.

Lemma step_participants_wf i s : participants_wf s → participants_wf (step i s).1.
Proof.
  intros [Hact Hlog].
  event_cases i Hi;
    try (destruct (step_keeps_calls i s) as [Ha Hl]; [by rewrite Hi|];
         unfold participants_wf; by rewrite Ha, Hl);
    unfold step; rewrite Hi.
  - (* call:invite *)
    unfold on_call_invite. destruct (activeCalls s !! c) eqn:Hc; simpl; [done|].
    split; simpl.
    + intros c' st' [[-> <-]|[_ H]]%lookup_insert_Some; [apply NoDup_nil_2|eauto].
    + apply Forall_app. split; [done|]. repeat constructor.
  - (* call:join *)
    unfold on_call_join. destruct (activeCalls s !! c) as [st|] eqn:Hc; simpl; [|done].
    split; simpl.
    + intros c' st' [[-> <-]|[_ H]]%lookup_insert_Some; [|eauto].
      simpl. apply NoDup_jsset_add. eauto.
    + apply Forall_update_log; [|done]. intros l _. simpl.
      apply NoDup_jsset_add, jsset_of_array_NoDup.
  - (* call:leave *)
    unfold on_call_leave. destruct (activeCalls s !! c) as [st|] eqn:Hc; simpl; [|done].
    destruct (jsset_delete (from i) (call_participants st)) as [|x rest] eqn:Hrest;
      simpl; split; simpl.
    + intros c' st' [Hne [[-> <-]|[_ H]]%lookup_insert_Some]%lookup_delete_Some;
        [done|eauto].
    + apply Forall_update_log; [|done]. intros l Hl. unfold finalized.
      by destruct (truthy_num _).
    + intros c' st' [[-> <-]|[_ H]]%lookup_insert_Some; [|eauto].
      simpl. rewrite <- Hrest. apply NoDup_filter. eauto.
    + done.
  - (* call:endAll *)
    unfold on_call_endAll. destruct (activeCalls s !! c) as [st|] eqn:Hc; simpl; [|done].
    split; simpl.
    + intros c' st' [_ H]%lookup_delete_Some. eauto.
    + apply Forall_update_log; [|done]. intros l Hl. unfold finalized.
      by destruct (truthy_num _).
Qed.

Lemma run_participants_wf inputs : ∀ s,
  participants_wf s → participants_wf (run inputs s).1.
Proof.
  induction inputs as [|i inputs IH]; intros s Hs; [done|]. simpl.
  specialize (IH _ (step_participants_wf i s Hs)).
  destruct (step i s) as [s1 o1]. simpl in *. by destruct (run inputs s1).
Qed.

(** X7: whatever events the server has handled since start-up, no
    participant list names a socket twice: not the participant set of an
    active session, which is what ['call:participants'] sends, and not the
    participant array of a log entry, which is what [GET /calls] returns. *)
Theorem participants_listed_once with_redis inputs :
  let s := (run inputs (initial with_redis)).1 in
  (∀ c st, activeCalls s !! c = Some st → NoDup (call_participants st))
  ∧ Forall (λ l, NoDup (log_participants l)) (callLogs s).
Proof.
  apply run_participants_wf. split; [|done].
  intros c st. simpl. by rewrite lookup_empty.
Qed.

(** X8: ['call:join'] is idempotent.  A second ['call:join'] of the same
    socket for the same call id leaves the server as the first one left
    it and sends the same participant list again; and after a
    ['call:join'] for an active call id the socket is a participant. *)
Theorem call_join_idempotent sid c s :
  on_call_join sid c (on_call_join sid c s).1 = on_call_join sid c s
  ∧ ∀ st, activeCalls s !! c = Some st →
          ∃ st', activeCalls (on_call_join sid c s).1 !! c = Some st'
                 ∧ sid ∈ call_participants st'.
Proof.
  split.
  - unfold on_call_join at 2 3. destruct (activeCalls s !! c) as [st|] eqn:Hc; simpl.
    + unfold on_call_join. simpl. rewrite lookup_insert_eq. simpl.
      rewrite jsset_add_idem, insert_insert_eq. unfold set_callLogs, set_activeCalls.
      simpl. rewrite update_log_idem; [done|done|].
      intros l. unfold set_log_participants. simpl.
      rewrite (jsset_of_array_id (jsset_add _ _))
        by apply NoDup_jsset_add, jsset_of_array_NoDup.
      by rewrite jsset_add_idem.
    + unfold on_call_join. by rewrite Hc.
  - intros st Hst. unfold on_call_join. rewrite Hst. simpl.
    rewrite lookup_insert_eq. eexists. split; [done|].
    simpl. apply jsset_add_elem. by left.
Qed.
End Participants.

(** ** The life of a session and of its log entry *)

Section Sessions.
Implicit Types (s : Server) (logs : list CallLog).

Lemma log_extends_refl l : log_extends l l.
Proof. by repeat split. Qed.

Lemma log_extends_trans l1 l2 l3 :
  log_extends l1 l2 → log_extends l2 l3 → log_extends l1 l3.
Proof.
  intros (Ha & Hb & Hc & Hd & He & Hf & Hg) (Ha' & Hb' & Hc' & Hd' & He' & Hf' & Hg').
  repeat split; try congruence.
  - intros Ht. specialize (Hf Ht). rewrite Hf' by (by rewrite Hf). done.
  - set_solver.
Qed.

Lemma log_extends_joined sid l :
  log_extends l (set_log_participants
                   (jsset_add sid (jsset_of_array (log_participants l))) l).
Proof.
  repeat split; simpl. intros x Hx.
  apply jsset_add_elem. right. by apply jsset_of_array_elem.
Qed.

Lemma log_extends_finalized now l : log_extends l (finalized now l).
Proof.
  unfold finalized. destruct (truthy_num (log_endedAt l)) eqn:Ht.
  - apply log_extends_refl.
  - repeat split; simpl; [by rewrite Ht|done].
Qed.

Lemma update_log_extends n c f logs l :
  (∀ l, log_extends l (f l)) →
  logs !! n = Some l →
  ∃ l', update_log c f logs !! n = Some l' ∧ log_extends l l'.
Proof.
  intros Hf Hl. destruct (update_log_lookup n c f logs l Hl) as [H|[_ H]].
  - exists l. split; [done|apply log_extends_refl].
  - exists (f l). split; [done|apply Hf].
Qed.

Lemma step_log_extends n i s l :
  callLogs s !! n = Some l →
  ∃ l', callLogs (step i s).1 !! n = Some l' ∧ log_extends l l'.
Proof.
  intros Hl.
  event_cases i Hi;
    try (destruct (step_keeps_calls i s) as [_ Hlogs]; [by rewrite Hi|];
         rewrite Hlogs; exists l; split; [done|apply log_extends_refl]);
    unfold step; rewrite Hi.
  - unfold on_call_invite. destruct (activeCalls s !! c); simpl;
      exists l; (split; [|apply log_extends_refl]); [done|].
    by apply lookup_app_l_Some.
  - unfold on_call_join. destruct (activeCalls s !! c); simpl.
    + apply update_log_extends; [|done]. intros l0. apply log_extends_joined.
    + exists l. split; [done|apply log_extends_refl].
  - unfold on_call_leave. destruct (activeCalls s !! c) as [st|]; simpl.
    + destruct (jsset_delete (from i) (call_participants st)); simpl.
      * apply update_log_extends; [|done]. intros l0. apply log_extends_finalized.
      * exists l. split; [done|apply log_extends_refl].
    + exists l. split; [done|apply log_extends_refl].
  - unfold on_call_endAll. destruct (activeCalls s !! c) as [st|]; simpl.
    + apply update_log_extends; [|done]. intros l0. apply log_extends_finalized.
    + exists l. split; [done|apply log_extends_refl].
Qed.

(** X9: a log entry is written once.  Through any sequence of events the
    entry at a given index stays at that index and keeps its call id,
    room, type, start time and initiator; an end time, once set, is never
    changed; and no participant is ever removed from it. *)
Theorem log_entry_written_once inputs : ∀ s n l,
  callLogs s !! n = Some l →
  ∃ l', callLogs (run inputs s).1 !! n = Some l' ∧ log_extends l l'.
Proof.
  induction inputs as [|i inputs IH]; intros s n l Hl; simpl.
  - exists l. split; [done|apply log_extends_refl].
  - destruct (step_log_extends n i s l Hl) as (l1 & Hl1 & He1).
    destruct (IH (step i s).1 n l1 Hl1) as (l2 & Hl2 & He2).
    destruct (step i s) as [s1 o1]. simpl in *.
    destruct (run inputs s1) as [s2 o2]. simpl in *.
    exists l2. split; [done|]. by eapply log_extends_trans.
Qed.

(** X10: one event changes nothing of a live session but its participant
    set, and that only when the event is a ['call:join'] or a
    ['call:leave'] for its call id: a session that is active before and
    after keeps its room, type, start time and initiator. *)
Theorem session_fields_fixed i s cid st st' :
  activeCalls s !! cid = Some st →
  activeCalls (step i s).1 !! cid = Some st' →
  same_session st st'
  ∧ (st' = st ∨ event i = CallJoin cid ∨ event i = CallLeave cid).
Proof.
  intros Hst Hst'.
  event_cases i Hi;
    try (destruct (step_keeps_calls i s) as [Ha _]; [by rewrite Hi|];
         rewrite Ha, Hst in Hst'; injection Hst' as <-; by split; [|left]);
    unfold step in Hst'; rewrite Hi in Hst'.
  - unfold on_call_invite in Hst'.
    destruct (activeCalls s !! c) eqn:Hc; simpl in Hst'.
    + rewrite Hst in Hst'. injection Hst' as <-. by split; [|left].
    + rewrite lookup_insert_ne in Hst' by congruence.
      rewrite Hst in Hst'. injection Hst' as <-. by split; [|left].
  - unfold on_call_join in Hst'.
    destruct (activeCalls s !! c) as [st0|] eqn:Hc; simpl in Hst'.
    + destruct (decide (c = cid)) as [->|Hne].
      * rewrite lookup_insert_eq in Hst'. injection Hst' as <-.
        rewrite Hst in Hc. injection Hc as <-. split; [by repeat split|auto].
      * rewrite lookup_insert_ne in Hst' by done.
        rewrite Hst in Hst'. injection Hst' as <-. by split; [|left].
    + rewrite Hst in Hst'. injection Hst' as <-. by split; [|left].
  - unfold on_call_leave in Hst'.
    destruct (activeCalls s !! c) as [st0|] eqn:Hc; simpl in Hst'.
    + destruct (decide (c = cid)) as [->|Hne].
      * rewrite Hst in Hc. injection Hc as <-.
        destruct (jsset_delete (from i) (call_participants st)); simpl in Hst'.
        -- by rewrite lookup_delete_eq in Hst'.
        -- rewrite lookup_insert_eq in Hst'. injection Hst' as <-.
           split; [by repeat split|auto].
      * destruct (jsset_delete (from i) (call_participants st0)); simpl in Hst';
          rewrite ?lookup_delete_ne, lookup_insert_ne in Hst' by done;
          rewrite Hst in Hst'; injection Hst' as <-; by split; [|left].
    + rewrite Hst in Hst'. injection Hst' as <-. by split; [|left].
  - unfold on_call_endAll in Hst'.
    destruct (activeCalls s !! c) as [st0|] eqn:Hc; simpl in Hst'.
    + destruct (decide (c = cid)) as [->|Hne].
      * by rewrite lookup_delete_eq in Hst'.
      * rewrite lookup_delete_ne in Hst' by done.
        rewrite Hst in Hst'. injection Hst' as <-. by split; [|left].
    + rewrite Hst in Hst'. injection Hst' as <-. by split; [|left].
Qed.
End Sessions.

Lemma log_entry_written_once_witness :
  let s := (run (connections ["A"; "B"]
                 ++ [mkInput "A" 10 11 (CallInvite "g1" None Audio None);
                     mkInput "A" 12 12 (CallJoin "g1");
                     mkInput "A" 20 20 (CallLeave "g1")]) (initial false)).1 in
  let inputs := [mkInput "B" 30 31 (CallInvite "g1" None Video None);
                 mkInput "B" 32 32 (CallJoin "g1");
                 mkInput "B" 40 40 (CallEndAll "g1")] in
  ∃ l', callLogs (run inputs s).1 !! 0%nat = Some l'
        ∧ log_extends (mkLog "g1" None Audio 11 (Some 20) "A" ["A"]) l'.
Proof.
  apply (log_entry_written_once
           [mkInput "B" 30 31 (CallInvite "g1" None Video None);
            mkInput "B" 32 32 (CallJoin "g1");
            mkInput "B" 40 40 (CallEndAll "g1")]).
  reflexivity.
Defined.

Lemma session_fields_fixed_witness :
  let s := (run (connections ["A"; "B"]
                 ++ [mkInput "A" 10 11 (CallInvite "g1" (Some "lobby") Audio None)])
              (initial false)).1 in
  let i := mkInput "B" 12 12 (CallJoin "g1") in
  let st := mkCall (Some "lobby") Audio [] 10 "A" in
  let st' := mkCall (Some "lobby") Audio ["B"] 10 "A" in
  same_session st st'
  ∧ (st' = st ∨ event i = CallJoin "g1" ∨ event i = CallLeave "g1").
Proof.
  apply (session_fields_fixed (mkInput "B" 12 12 (CallJoin "g1"))
           (run (connections ["A"; "B"]
                 ++ [mkInput "A" 10 11 (CallInvite "g1" (Some "lobby") Audio None)])
              (initial false)).1 "g1").
  - reflexivity.
  - reflexivity.
Defined.

(** ** Ending a call, and the log entry of a live session *)

Section Ending.
Implicit Types (s : Server) (logs : list CallLog).

(** X11: ['call:endAll'] needs no standing.  Whoever sends it, participant
    or not, for an active call id: every participant is sent
    ['webrtc:end'], the scope of the call is sent ['call:endAll'] last, the
    session leaves the active set and no other session is touched; after
    that a ['call:join'], ['call:leave'] or ['call:endAll'] for the call id
    does nothing and sends nothing. *)
Theorem endAll_ends_for_anyone sid cid now st s :
  activeCalls s !! cid = Some st →
  let r := on_call_endAll sid cid now s in
  activeCalls r.1 !! cid = None
  ∧ (∀ c', c' ≠ cid → activeCalls r.1 !! c' = activeCalls s !! c')
  ∧ (∀ pid, pid ∈ call_participants st →
            Emit (ToRoom pid) "webrtc:end" (PFrom sid) ∈ r.2)
  ∧ last r.2 = Some (Emit (call_scope st) "call:endAll" (PCallEndAll cid))
  ∧ ∀ x t, on_call_join x cid r.1 = (r.1, [])
           ∧ on_call_leave x cid t r.1 = (r.1, [])
           ∧ on_call_endAll x cid t r.1 = (r.1, []).
Proof.
  intros Hst r.
  assert (r = (set_activeCalls (delete cid (activeCalls s))
                 (set_callLogs (finalize cid now (callLogs s)) s),
               map (λ pid, Emit (ToRoom pid) "webrtc:end" (PFrom sid))
                   (call_participants st)
               ++ [Emit (call_scope st) "call:endAll" (PCallEndAll cid)])) as ->
    by (subst r; unfold on_call_endAll; by rewrite Hst).
  simpl. split; [apply lookup_delete_eq|]. split.
  { intros c' Hne. by apply lookup_delete_ne. }
  split.
  { intros pid Hpid. apply elem_of_app. left.
    apply list_elem_of_fmap. by exists pid. }
  split; [apply last_snoc|].
  intros x t. unfold on_call_join, on_call_leave, on_call_endAll. simpl.
  by rewrite lookup_delete_eq.
Qed.

Lemma logged_open_app c st logs extra :
  logged_open c st logs → logged_open c st (logs ++ extra).
Proof.
  intros (n & l & Hl & H). exists n, l. split; [by apply lookup_app_l_Some|done].
Qed.

Lemma logged_open_update c c' st f logs :
  (c ≠ c' ∨ ∀ l, log_callId (f l) = log_callId l ∧ log_endedAt (f l) = log_endedAt l
                 ∧ log_room (f l) = log_room l ∧ log_type (f l) = log_type l
                 ∧ log_initiator (f l) = log_initiator l) →
  logged_open c st logs → logged_open c st (update_log c' f logs).
Proof.
  intros Hf (n & l & Hl & Hc & He & Hr & Ht & Hi).
  destruct (update_log_lookup n c' f logs l Hl) as [H|[Hc' H]].
  - by exists n, l.
  - destruct Hf as [Hne|Hf]; [congruence|].
    exists n, (f l). destruct (Hf l) as (-> & -> & -> & -> & ->). done.
Qed.

Lemma step_sessions_logged i s : sessions_logged s → sessions_logged (step i s).1.
Proof.
  intros Hs.
  event_cases i Hi;
    try (destruct (step_keeps_calls i s) as [Ha Hl]; [by rewrite Hi|];
         unfold sessions_logged; by rewrite Ha, Hl);
    unfold step; rewrite Hi; intros c' st'.
  - unfold on_call_invite. destruct (activeCalls s !! c) eqn:Hc; simpl; [apply Hs|].
    intros [[-> <-]|[_ H]]%lookup_insert_Some.
    + exists (length (callLogs s)), (mkLog c' room t (at2 i) None (from i) []).
      split; [by apply list_lookup_middle|done].
    + by apply logged_open_app, Hs.
  - unfold on_call_join. destruct (activeCalls s !! c) as [st|] eqn:Hc; simpl; [|apply Hs].
    intros [[-> <-]|[_ H]]%lookup_insert_Some;
      (apply logged_open_update; [by right|]); [|by apply Hs].
    by apply (Hs c' st).
  - unfold on_call_leave. destruct (activeCalls s !! c) as [st|] eqn:Hc; simpl; [|apply Hs].
    destruct (jsset_delete (from i) (call_participants st)) as [|x rest]; simpl.
    + intros [Hne [[-> <-]|[_ H]]%lookup_insert_Some]%lookup_delete_Some; [done|].
      apply logged_open_update; [by left|by apply Hs].
    + intros [[-> <-]|[_ H]]%lookup_insert_Some; [by apply (Hs c' st)|by apply Hs].
  - unfold on_call_endAll. destruct (activeCalls s !! c) as [st|] eqn:Hc; simpl; [|apply Hs].
    intros [Hne H]%lookup_delete_Some.
    apply logged_open_update; [by left|by apply Hs].
Qed.

Lemma run_sessions_logged inputs : ∀ s,
  sessions_logged s → sessions_logged (run inputs s).1.
Proof.
  induction inputs as [|i inputs IH]; intros s Hs; [done|]. simpl.
  specialize (IH _ (step_sessions_logged i s Hs)).
  destruct (step i s) as [s1 o1]. simpl in *. by destruct (run inputs s1).
Qed.

(** X12: whatever events the server has handled since start-up, every
    session of the active set has an entry in the call log with its call
    id, room, type and initiator and with no end time yet: no call is
    active without being logged, and no entry of a live call is closed. *)
Theorem active_sessions_are_logged with_redis inputs c st :
  let s := (run inputs (initial with_redis)).1 in
  activeCalls s !! c = Some st → logged_open c st (callLogs s).
Proof.
  intros s. apply (run_sessions_logged inputs (initial with_redis)).
  intros c' st'. simpl. by rewrite lookup_empty.
Qed.

Lemma find_log_lookup c logs l :
  find_log c logs = Some l →
  ∃ k, (k < length logs)%nat ∧ (log_callId <$> logs !! k) = Some c.
Proof.
  unfold find_log. induction logs as [|l0 logs IH]; [done|]. simpl.
  case_bool_decide as Hc.
  - intros _. exists 0%nat. simpl. split; [lia|by rewrite Hc].
  - intros H. destruct (IH H) as (k & Hk & Hl). exists (S k). split; [lia|done].
Qed.

(** An update goes to the first entry of the call id: an entry behind it
    is out of reach. *)
Lemma update_log_after_first c f logs : ∀ k n,
  (k < n)%nat → (log_callId <$> logs !! k) = Some c →
  update_log c f logs !! n = logs !! n.
Proof.
  induction logs as [|l logs IH]; intros k n Hkn Hk; [done|]. simpl.
  case_bool_decide as Hc.
  - destruct n; [lia|done].
  - destruct k as [|k]; [simpl in Hk; congruence|].
    destruct n as [|n]; [lia|]. simpl. apply (IH k); [lia|done].
Qed.

Lemma update_log_shadowed k n c c' e f logs :
  (k < n)%nat → log_callId e = c →
  (∀ l, log_callId (f l) = log_callId l) →
  shadowed k n c e logs → shadowed k n c e (update_log c' f logs).
Proof.
  intros Hkn He Hf [Hk Hn]. split.
  - destruct (logs !! k) as [lk|] eqn:Hlk; [|done]. simpl in Hk.
    destruct (update_log_lookup k c' f logs lk Hlk) as [->|[_ ->]]; simpl; [done|].
    by rewrite Hf.
  - destruct (decide (c' = c)) as [->|Hne].
    + by rewrite (update_log_after_first c f logs k n).
    + destruct (update_log_lookup n c' f logs e Hn) as [H|[Hc _]]; [done|congruence].
Qed.

Lemma step_shadowed j n c e i s :
  (j < n)%nat → log_callId e = c →
  shadowed j n c e (callLogs s) → shadowed j n c e (callLogs (step i s).1).
Proof.
  intros Hkn He Hsh. rename c into cid.
  event_cases i Hi;
    try (destruct (step_keeps_calls i s) as [_ Hl]; [by rewrite Hi|]; by rewrite Hl);
    unfold step; rewrite Hi.
  - unfold on_call_invite. destruct (activeCalls s !! c); simpl; [done|].
    destruct Hsh as [Hk Hn]. split; [|by apply lookup_app_l_Some].
    destruct (callLogs s !! j) as [lk|] eqn:Hlk; [|done].
    by rewrite (lookup_app_l_Some _ _ _ _ Hlk).
  - unfold on_call_join. destruct (activeCalls s !! c); simpl; [|done].
    by apply update_log_shadowed.
  - unfold on_call_leave. destruct (activeCalls s !! c) as [st|]; simpl; [|done].
    destruct (jsset_delete (from i) (call_participants st)); simpl; [|done].
    apply update_log_shadowed; [done..|apply finalized_id|done].
  - unfold on_call_endAll. destruct (activeCalls s !! c) as [st|]; simpl; [|done].
    apply update_log_shadowed; [done..|apply finalized_id|done].
Qed.

Lemma run_shadowed k n c e inputs : ∀ s,
  (k < n)%nat → log_callId e = c →
  shadowed k n c e (callLogs s) → shadowed k n c e (callLogs (run inputs s).1).
Proof.
  induction inputs as [|i inputs IH]; intros s Hkn He Hsh; [done|]. simpl.
  specialize (IH _ Hkn He (step_shadowed k n c e i s Hkn He Hsh)).
  destruct (step i s) as [s1 o1]. simpl in *. by destruct (run inputs s1).
Qed.

(** X13: a call id that is used again gets a log entry that is never
    written to.  When the log already holds an entry of the call id and a
    new invite opens a session under it, the entry appended for the new
    session keeps, through any sequence of events, its ['call:join']s,
    ['call:leave']s and ['call:endAll'] included, no participants and no
    end time: [find] returns the older entry every time. *)
Theorem reused_call_id_entry_untouched sid cid room type to now later l0 inputs s :
  activeCalls s !! cid = None →
  find_log cid (callLogs s) = Some l0 →
  let r := on_call_invite sid cid room type to now later s in
  callLogs (run inputs r.1).1 !! length (callLogs s)
  = Some (mkLog cid room type later None sid []).
Proof.
  intros Hnew Hold r.
  destruct (find_log_lookup cid (callLogs s) l0 Hold) as (k & Hk & Hlk).
  assert (callLogs r.1 = callLogs s ++ [mkLog cid room type later None sid []]) as Hr
    by (subst r; unfold on_call_invite; by rewrite Hnew).
  assert (shadowed k (length (callLogs s)) cid
            (mkLog cid room type later None sid []) (callLogs r.1)) as Hsh.
  { rewrite Hr. split; [|by apply list_lookup_middle].
    destruct (callLogs s !! k) as [lk|] eqn:Hl; [|done].
    by rewrite (lookup_app_l_Some _ _ _ _ Hl). }
  by destruct (run_shadowed k _ cid (mkLog cid room type later None sid [])
                 inputs r.1 Hk eq_refl Hsh) as [_ H].
Qed.
End Ending.

Lemma endAll_ends_for_anyone_witness :
  let s := (run (connections ["A"; "B"; "D"]
                 ++ [mkInput "A" 10 11 (CallInvite "g1" (Some "lobby") Audio None);
                     mkInput "A" 12 12 (CallJoin "g1");
                     mkInput "B" 13 13 (CallJoin "g1")]) (initial false)).1 in
  let st := mkCall (Some "lobby") Audio ["A"; "B"] 10 "A" in
  let r := on_call_endAll "D" "g1" 50 s in
  activeCalls r.1 !! "g1" = None
  ∧ (∀ c', c' ≠ "g1" → activeCalls r.1 !! c' = activeCalls s !! c')
  ∧ (∀ pid, pid ∈ call_participants st →
            Emit (ToRoom pid) "webrtc:end" (PFrom "D") ∈ r.2)
  ∧ last r.2 = Some (Emit (call_scope st) "call:endAll" (PCallEndAll "g1"))
  ∧ ∀ x t, on_call_join x "g1" r.1 = (r.1, [])
           ∧ on_call_leave x "g1" t r.1 = (r.1, [])
           ∧ on_call_endAll x "g1" t r.1 = (r.1, []).
Proof.
  apply (endAll_ends_for_anyone "D" "g1" 50
           (mkCall (Some "lobby") Audio ["A"; "B"] 10 "A")).
  reflexivity.
Defined.

Lemma reused_call_id_entry_untouched_witness :
  let s := (run (connections ["A"; "B"]
                 ++ [mkInput "A" 10 11 (CallInvite "g1" None Audio None);
                     mkInput "A" 12 12 (CallJoin "g1");
                     mkInput "A" 20 20 (CallLeave "g1")]) (initial false)).1 in
  let inputs := [mkInput "B" 32 32 (CallJoin "g1");
                 mkInput "B" 40 40 (CallLeave "g1")] in
  let r := on_call_invite "B" "g1" None Video None 30 31 s in
  callLogs (run inputs r.1).1 !! length (callLogs s)
  = Some (mkLog "g1" None Video 31 None "B" []).
Proof.
  apply (reused_call_id_entry_untouched "B" "g1" None Video None 30 31
           (mkLog "g1" None Audio 11 (Some 20) "A" ["A"])
           [mkInput "B" 32 32 (CallJoin "g1");
            mkInput "B" 40 40 (CallLeave "g1")]).
  - reflexivity.
  - reflexivity.
Defined.

(** ** Strings: [split] and [toLowerCase] *)

Section Strings.

Lemma split_on_no_sep sep s : has_char sep s = false → split_on sep s = [s].
Proof.
  induction s as [|c s IH]; simpl; [done|].
  intros [Hc Hs]%orb_false_iff. rewrite Hc. by rewrite (IH Hs).
Qed.

Lemma split_on_app sep s t :
  has_char sep s = false →
  split_on sep (s +:+ String sep t) = s :: split_on sep t.
Proof.
  induction s as [|c s IH]; simpl.
  - intros _. by rewrite Ascii.eqb_refl.
  - intros [Hc Hs]%orb_false_iff. rewrite Hc. by rewrite (IH Hs).
Qed.

Lemma split_on_head sep s : ∃ p ps, split_on sep s = p :: ps.
Proof.
  induction s as [|c s (p & ps & IH)]; simpl; [eauto|].
  destruct (Ascii.eqb c sep); [eauto|]. rewrite IH. eauto.
Qed.

Lemma lower_char_space c : lower_char c = " "%char → c = " "%char.
Proof.
  destruct c as [[] [] [] [] [] [] [] []]; vm_compute; congruence.
Qed.

Lemma toLowerCase_no_space s :
  has_char " " (toLowerCase s) = false → has_char " " s = false.
Proof.
  induction s as [|c s IH]; simpl; [done|].
  intros [Hc Hs]%orb_false_iff. apply orb_false_iff. split; [|by apply IH].
  apply Ascii.eqb_neq. apply Ascii.eqb_neq in Hc. intros ->. by apply Hc.
Qed.

(** X14: [verifyJwt] lets the auth service decide and nobody else.  It
    returns claims only if the service returned them for some non-empty
    token; and for a header made of a scheme that reads [bearer] in any
    letter case, one space and a non-empty token without spaces, it
    returns what the service says of exactly that token. *)
Theorem verifyJwt_asks_the_service verify scheme token :
  toLowerCase scheme = "bearer" →
  token ≠ "" →
  has_char " " token = false →
  verifyJwt verify (Some (scheme +:+ " " +:+ token)) = verify token
  ∧ ∀ header claims, verifyJwt verify header = Some claims →
                     ∃ t, t ≠ "" ∧ verify t = Some claims.
Proof.
  intros Hscheme Htoken Hspace. split.
  - assert (has_char " " scheme = false) as Hs
      by (apply toLowerCase_no_space; by rewrite Hscheme).
    assert (truthy scheme = true) as Hst by (by destruct scheme).
    assert (truthy token = true) as Htt by (by destruct token).
    unfold verifyJwt.
    assert (nonempty (Some (scheme +:+ " " +:+ token)) = Some (scheme +:+ " " +:+ token))
      as -> by (destruct scheme; [done|by simpl]).
    change (scheme +:+ " " +:+ token) with (scheme +:+ String " " token).
    rewrite (split_on_app _ _ _ Hs), (split_on_no_sep _ _ Hspace). simpl.
    rewrite Hst, Htt. simpl. by rewrite Hscheme.
  - intros header claims. unfold verifyJwt.
    destruct (nonempty header) as [b|]; [|done].
    destruct (nonempty (split_on " " b !! 1%nat)) as [t|] eqn:Ht; [|done].
    case_bool_decide; [|done]. intros Hv. exists t. split; [|done].
    destruct (split_on " " b !! 1%nat) as [t'|]; [|done]. simpl in Ht.
    destruct (truthy t') eqn:Htr; [|done]. injection Ht as <-. by destruct t'.
Qed.
End Strings.

Lemma verifyJwt_asks_the_service_witness :
  verifyJwt one_token_service (Some ("BEARER" +:+ " " +:+ "tok1")) = one_token_service "tok1"
  ∧ ∀ header claims, verifyJwt one_token_service header = Some claims →
                     ∃ t, t ≠ "" ∧ one_token_service t = Some claims.
Proof.
  apply (verifyJwt_asks_the_service one_token_service "BEARER" "tok1").
  - reflexivity.
  - discriminate.
  - reflexivity.
Defined.

(** ** Contacts kept in memory *)

Section Contacts.
Implicit Types (s : Server) (st : Stores) (claims : JwtClaims).

Lemma sort_strings_elem x l : x ∈ sort_strings l ↔ x ∈ l.
Proof. unfold sort_strings. by rewrite sorting.merge_sort_Permutation. Qed.

(** What a [POST /contacts] that is answered 200 without MongoDB has done:
    the owner is the token's subject, and the key of the contact has been
    added to the owner's set. *)
Lemma contacts_post_ok claims ownerId name cid now st :
  reply_status (contacts_post claims ownerId name cid WriteOff now st).1 = 200 →
  inMemContacts (contacts_post claims ownerId name cid WriteOff now st).2
  = <[sub claims := jsset_add (contact_key (js_text name) (js_text cid))
                              (default [] (inMemContacts st !! sub claims))]>
      (inMemContacts st).
Proof.
  unfold contacts_post, rate_limited.
  destruct (rateLimit now _ 60 60000 (rateMap st)) as [ok rm] eqn:Hrl.
  assert ((if js_is_string ownerId && js_truthy ownerId then js_text ownerId else sub claims)
          = sub claims
          ∨ js_truthy ownerId && negb (bool_decide (ownerId = JString (sub claims))) = true)
    as [Heff|H403].
  { destruct ownerId as [o| |]; simpl; [|by right|by left].
    destruct (truthy o) eqn:Ho; simpl; [|by left].
    case_bool_decide as Heq; [left; congruence|by right]. }
  - rewrite Heff in *. repeat case_match; simpl; try discriminate; simplify_eq/=; done.
  - rewrite H403. simpl. discriminate.
Qed.

(** What a [GET /contacts] that is answered 200 without MongoDB lists. *)
Lemma contacts_get_ok claims q_ownerId now s st :
  reply_status (contacts_get claims q_ownerId ReadOff now s st).1 = 200 →
  reply_body (contacts_get claims q_ownerId ReadOff now s st).1
  = CbContacts (map (decode_contact s)
                    (sort_strings (default [] (inMemContacts st !! sub claims)))).
Proof.
  unfold contacts_get, rate_limited.
  destruct (rateLimit now _ 60 60000 (rateMap st)) as [ok rm] eqn:Hrl.
  destruct (truthy (default "" (nonempty q_ownerId))) eqn:Ho; simpl.
  - case_bool_decide as Heq; simpl; [|discriminate]. rewrite Heq.
    repeat case_match; simpl; try discriminate; simplify_eq/=; done.
  - repeat case_match; simpl; try discriminate; simplify_eq/=; done.
Qed.

(** What a [DELETE /contacts] that is answered 200 without MongoDB has
    done. *)
Lemma contacts_delete_ok claims q_ownerId q_name q_cid now st :
  reply_status (contacts_delete claims q_ownerId q_name q_cid WriteOff now st).1 = 200 →
  inMemContacts (contacts_delete claims q_ownerId q_name q_cid WriteOff now st).2
  = <[sub claims := jsset_delete (contact_key (default "" (nonempty q_name))
                                              (default "" (nonempty q_cid)))
                                 (default [] (inMemContacts st !! sub claims))]>
      (inMemContacts st).
Proof.
  unfold contacts_delete, rate_limited.
  destruct (rateLimit now _ 60 60000 (rateMap st)) as [ok rm] eqn:Hrl.
  destruct (truthy (default "" (nonempty q_ownerId))) eqn:Ho; simpl.
  - case_bool_decide as Heq; simpl; [|discriminate]. rewrite Heq.
    repeat case_match; simpl; try discriminate; simplify_eq/=; done.
  - repeat case_match; simpl; try discriminate; simplify_eq/=; done.
Qed.

(** After a [POST] answered 200, a [GET] answered 200 lists the contact
    as its key decodes. *)
Lemma post_then_get claims ownerId q_ownerId name cid t1 t2 s st :
  reply_status (contacts_post claims ownerId name cid WriteOff t1 st).1 = 200 →
  let st1 := (contacts_post claims ownerId name cid WriteOff t1 st).2 in
  reply_status (contacts_get claims q_ownerId ReadOff t2 s st1).1 = 200 →
  ∃ cs, reply_body (contacts_get claims q_ownerId ReadOff t2 s st1).1 = CbContacts cs
        ∧ decode_contact s (contact_key (js_text name) (js_text cid)) ∈ cs.
Proof.
  intros Hpost st1 Hget. eexists. split; [by apply contacts_get_ok|].
  apply list_elem_of_fmap. eexists. split; [done|].
  apply sort_strings_elem. subst st1. rewrite contacts_post_ok by done.
  rewrite lookup_insert_eq. simpl. apply jsset_add_elem. by left.
Qed.

Lemma append_assoc (a b c : string) : (a +:+ b) +:+ c = a +:+ (b +:+ c).
Proof.
  induction a as [|x a IH]; [reflexivity|].
  change (String x ((a +:+ b) +:+ c) = String x (a +:+ (b +:+ c))). by f_equal.
Qed.

Lemma decode_contact_key s n c :
  has_char "|" n = false →
  decode_contact s (contact_key n c)
  = let c1 := default "" (head (split_on "|" c)) in
    mkContact n c1 (if truthy c1 then bool_decide (c1 ∈ onlineUserIds s) else false).
Proof.
  intros Hn. unfold decode_contact, contact_key.
  change (n +:+ "|" +:+ c) with (n +:+ String "|" c).
  rewrite (split_on_app _ _ _ Hn). simpl.
  by destruct (split_on "|" c).
Qed.

(** X15: a contact comes back as it was stored when neither its name nor
    its contact id holds a ['|'].  After a [POST /contacts] answered 200,
    a [GET /contacts] of the same user answered 200 (both without MongoDB)
    lists the contact with that name and that contact id, online exactly
    when the contact id is not empty and is in [onlineUserIds]. *)
Theorem contact_round_trip claims ownerId q_ownerId n c t1 t2 s st :
  has_char "|" n = false →
  has_char "|" c = false →
  reply_status (contacts_post claims ownerId (JString n) (JString c) WriteOff t1 st).1 = 200 →
  let st1 := (contacts_post claims ownerId (JString n) (JString c) WriteOff t1 st).2 in
  reply_status (contacts_get claims q_ownerId ReadOff t2 s st1).1 = 200 →
  ∃ cs, reply_body (contacts_get claims q_ownerId ReadOff t2 s st1).1 = CbContacts cs
        ∧ mkContact n c (if truthy c then bool_decide (c ∈ onlineUserIds s) else false) ∈ cs.
Proof.
  intros Hn Hc Hpost st1 Hget.
  destruct (post_then_get claims ownerId q_ownerId (JString n) (JString c) t1 t2 s st
              Hpost Hget) as (cs & Hbody & Hin).
  exists cs. split; [done|]. cbn [js_text] in Hin.
  rewrite (decode_contact_key s n c Hn), (split_on_no_sep _ _ Hc) in Hin. done.
Qed.

(** X16: the key is not a faithful encoding.  A contact whose name is
    [n1|n2] (no other ['|'] in it) is listed under the name [n1] with [n2]
    as its contact id: what follows the first ['|'] of the name is read as
    the contact id, and the contact id that was sent is not shown. *)
Theorem contact_name_with_bar_is_split claims ownerId q_ownerId n1 n2 c t1 t2 s st :
  has_char "|" n1 = false →
  has_char "|" n2 = false →
  let name := JString (n1 +:+ "|" +:+ n2) in
  reply_status (contacts_post claims ownerId name (JString c) WriteOff t1 st).1 = 200 →
  let st1 := (contacts_post claims ownerId name (JString c) WriteOff t1 st).2 in
  reply_status (contacts_get claims q_ownerId ReadOff t2 s st1).1 = 200 →
  ∃ cs, reply_body (contacts_get claims q_ownerId ReadOff t2 s st1).1 = CbContacts cs
        ∧ mkContact n1 n2 (if truthy n2 then bool_decide (n2 ∈ onlineUserIds s) else false) ∈ cs.
Proof.
  intros Hn1 Hn2 name Hpost st1 Hget.
  destruct (post_then_get claims ownerId q_ownerId name (JString c) t1 t2 s st
              Hpost Hget) as (cs & Hbody & Hin).
  exists cs. split; [done|]. subst name. cbn [js_text] in Hin.
  assert (contact_key (n1 +:+ "|" +:+ n2) c = contact_key n1 (n2 +:+ "|" +:+ c)) as Hkey.
  { unfold contact_key. by rewrite append_assoc. }
  rewrite Hkey, (decode_contact_key s n1 _ Hn1) in Hin.
  change (n2 +:+ "|" +:+ c) with (n2 +:+ String "|" c) in Hin.
  by rewrite (split_on_app _ _ _ Hn2) in Hin.
Qed.
Lemma default_nonempty_some x : default "" (nonempty (Some x)) = x.
Proof. by destruct x. Qed.

(** X17: [DELETE /contacts] undoes [POST /contacts] for the same name and
    contact id.  After a [POST] answered 200 and a [DELETE] naming the same
    name and contact id answered 200 (both without MongoDB), the user's
    set holds the keys it held before the [POST] except the key of that
    contact, and the sets of the other users are as before. *)
Theorem contact_delete_undoes_post claims ownerId q_ownerId n c t1 t2 st :
  reply_status (contacts_post claims ownerId (JString n) (JString c) WriteOff t1 st).1 = 200 →
  let st1 := (contacts_post claims ownerId (JString n) (JString c) WriteOff t1 st).2 in
  reply_status (contacts_delete claims q_ownerId (Some n) (Some c) WriteOff t2 st1).1 = 200 →
  let st2 := (contacts_delete claims q_ownerId (Some n) (Some c) WriteOff t2 st1).2 in
  (∀ key, key ∈ default [] (inMemContacts st2 !! sub claims)
          ↔ key ∈ default [] (inMemContacts st !! sub claims) ∧ key ≠ contact_key n c)
  ∧ ∀ owner, owner ≠ sub claims → inMemContacts st2 !! owner = inMemContacts st !! owner.
Proof.
  intros Hpost st1 Hdel st2. subst st2.
  rewrite contacts_delete_ok by done. subst st1.
  rewrite contacts_post_ok by done. rewrite !default_nonempty_some. split.
  - intros key. rewrite !lookup_insert_eq. simpl. unfold jsset_delete.
    rewrite list_elem_of_filter, jsset_add_elem. naive_solver.
  - intros owner Hne. by rewrite !lookup_insert_ne.
Qed.

Lemma length_append (a b : string) :
  String.length (a +:+ b) = (String.length a + String.length b)%nat.
Proof.
  induction a as [|x a IH]; [reflexivity|].
  change (S (String.length (a +:+ b)) = S (String.length a + String.length b)).
  by rewrite IH.
Qed.

(** X18: without MongoDB a contact is deleted by its whole key only.  A
    contact stored with a name and a contact id is still in the user's
    set after a [DELETE /contacts] that names the contact id alone,
    although that request is answered 200. *)
Theorem contact_delete_by_id_alone_keeps claims ownerId q_ownerId n c t1 t2 st :
  n ≠ "" →
  reply_status (contacts_post claims ownerId (JString n) (JString c) WriteOff t1 st).1 = 200 →
  let st1 := (contacts_post claims ownerId (JString n) (JString c) WriteOff t1 st).2 in
  reply_status (contacts_delete claims q_ownerId None (Some c) WriteOff t2 st1).1 = 200 →
  let st2 := (contacts_delete claims q_ownerId None (Some c) WriteOff t2 st1).2 in
  contact_key n c ∈ default [] (inMemContacts st2 !! sub claims).
Proof.
  intros Hn Hpost st1 Hdel st2. subst st2.
  rewrite contacts_delete_ok by done. subst st1.
  rewrite contacts_post_ok by done. rewrite default_nonempty_some.
  rewrite !lookup_insert_eq. simpl. unfold jsset_delete.
  rewrite list_elem_of_filter, jsset_add_elem. split; [|by left].
  unfold contact_key. intros Heq. apply (f_equal String.length) in Heq.
  rewrite !length_append in Heq. destruct n; [done|]. simpl in Heq. lia.
Qed.

(** X19: a request for somebody else's contacts is refused before it
    costs anything.  When the owner id sent is not empty and is not the
    subject of the token, each of the three contacts handlers answers 403
    and leaves the contact sets and the rate counters as they were,
    whatever the database would have said. *)
Theorem forbidden_owner_untouched claims o name cid q_name q_cid rd wr now s st :
  o ≠ "" →
  o ≠ sub claims →
  contacts_get claims (Some o) rd now s st
    = (mkReply 403 (CbError "forbidden_owner_mismatch"), st)
  ∧ contacts_post claims (JString o) name cid wr now st
    = (mkReply 403 (CbError "forbidden_owner_mismatch"), st)
  ∧ contacts_delete claims (Some o) q_name q_cid wr now st
    = (mkReply 403 (CbError "forbidden_owner_mismatch"), st).
Proof.
  intros Ho Hne.
  assert (truthy o = true) as Ht by (by destruct o).
  unfold contacts_get, contacts_post, contacts_delete. simpl.
  rewrite !Ht. simpl. rewrite !Ht. simpl.
  rewrite (bool_decide_eq_false_2 (o = sub claims)) by done.
  rewrite (bool_decide_eq_false_2 (JString o = JString (sub claims))) by congruence.
  done.
Qed.



End Contacts.

Lemma contact_round_trip_witness :
  let claims := mkClaims "u1" 0 in
  let s := (on_join "B" (JoinObject (Some "bob") (Some "u2")) (initial false)).1 in
  let st1 := (contacts_post claims JFalsy (JString "bob") (JString "u2") WriteOff 10
                no_stores).2 in
  ∃ cs, reply_body (contacts_get claims None ReadOff 20 s st1).1 = CbContacts cs
        ∧ mkContact "bob" "u2"
            (if truthy "u2" then bool_decide ("u2" ∈ onlineUserIds s) else false) ∈ cs.
Proof.
  apply (contact_round_trip (mkClaims "u1" 0) JFalsy None "bob" "u2" 10 20).
  - reflexivity.
  - reflexivity.
  - reflexivity.
  - reflexivity.
Defined.

Lemma contact_name_with_bar_is_split_witness :
  let claims := mkClaims "u1" 0 in
  let s := initial false in
  let name := JString ("ann" +:+ "|" +:+ "smith") in
  let st1 := (contacts_post claims JFalsy name (JString "u7") WriteOff 10 no_stores).2 in
  ∃ cs, reply_body (contacts_get claims None ReadOff 20 s st1).1 = CbContacts cs
        ∧ mkContact "ann" "smith"
            (if truthy "smith" then bool_decide ("smith" ∈ onlineUserIds s) else false) ∈ cs.
Proof.
  apply (contact_name_with_bar_is_split (mkClaims "u1" 0) JFalsy None "ann" "smith" "u7" 10 20).
  - reflexivity.
  - reflexivity.
  - reflexivity.
  - reflexivity.
Defined.

Lemma contact_delete_undoes_post_witness :
  let claims := mkClaims "u1" 0 in
  let st := (contacts_post claims JFalsy (JString "eve") JFalsy WriteOff 5 no_stores).2 in
  let st1 := (contacts_post claims JFalsy (JString "bob") (JString "u2") WriteOff 10 st).2 in
  let st2 := (contacts_delete claims (Some "u1") (Some "bob") (Some "u2") WriteOff 20 st1).2 in
  (∀ key, key ∈ default [] (inMemContacts st2 !! sub claims)
          ↔ key ∈ default [] (inMemContacts st !! sub claims) ∧ key ≠ contact_key "bob" "u2")
  ∧ ∀ owner, owner ≠ sub claims → inMemContacts st2 !! owner = inMemContacts st !! owner.
Proof.
  apply (contact_delete_undoes_post (mkClaims "u1" 0) JFalsy (Some "u1") "bob" "u2" 10 20).
  - reflexivity.
  - reflexivity.
Defined.

Lemma contact_delete_by_id_alone_keeps_witness :
  let claims := mkClaims "u1" 0 in
  let st1 := (contacts_post claims JFalsy (JString "bob") (JString "u2") WriteOff 10
                no_stores).2 in
  let st2 := (contacts_delete claims None None (Some "u2") WriteOff 20 st1).2 in
  contact_key "bob" "u2" ∈ default [] (inMemContacts st2 !! sub claims).
Proof.
  apply (contact_delete_by_id_alone_keeps (mkClaims "u1" 0) JFalsy None "bob" "u2" 10 20).
  - discriminate.
  - reflexivity.
  - reflexivity.
Defined.

Lemma forbidden_owner_untouched_witness :
  let claims := mkClaims "u1" 0 in
  contacts_get claims (Some "u2") ReadOff 10 (initial false) no_stores
    = (mkReply 403 (CbError "forbidden_owner_mismatch"), no_stores)
  ∧ contacts_post claims (JString "u2") (JString "bob") JFalsy WriteDone 10 no_stores
    = (mkReply 403 (CbError "forbidden_owner_mismatch"), no_stores)
  ∧ contacts_delete claims (Some "u2") (Some "bob") None WriteDone 10 no_stores
    = (mkReply 403 (CbError "forbidden_owner_mismatch"), no_stores).
Proof.
  apply (forbidden_owner_untouched (mkClaims "u1" 0) "u2").
  - discriminate.
  - discriminate.
Defined.


(** ** Message history *)

Section History.
Implicit Types (s : Server) (l : list StoredMessage) (m : StoredMessage).

Lemma insert_by_ts_perm m l : insert_by_ts m l ≡ₚ m :: l.
Proof.
  induction l as [|y l IH]; simpl; [done|].
  destruct (stored_ts m <=? stored_ts y); [done|].
  rewrite IH. apply Permutation_swap.
Qed.

Lemma sort_by_ts_perm l : sort_by_ts l ≡ₚ l.
Proof.
  induction l as [|m l IH]; simpl; [done|].
  by rewrite insert_by_ts_perm, IH.
Qed.

Lemma insert_by_ts_sorted m l :
  StronglySorted ts_le l → StronglySorted ts_le (insert_by_ts m l).
Proof.
  induction l as [|y l IH]; intros Hl; simpl.
  - repeat constructor.
  - apply StronglySorted_inv in Hl as [Hl Hy].
    destruct (Z.leb_spec (stored_ts m) (stored_ts y)) as [Hle|Hgt].
    + constructor; [by constructor|]. constructor; [done|].
      eapply Forall_impl; [exact Hy|]. unfold ts_le. intros z Hz. lia.
    + constructor; [by apply IH|].
      rewrite insert_by_ts_perm. constructor; [unfold ts_le; lia|done].
Qed.

Lemma sort_by_ts_sorted l : StronglySorted ts_le (sort_by_ts l).
Proof.
  induction l as [|m l IH]; simpl; [constructor|]. by apply insert_by_ts_sorted.
Qed.

(** The sort is stable: messages of one time stamp keep their order. *)
Lemma insert_by_ts_stable t m l :
  filter (λ x, stored_ts x = t) (insert_by_ts m l)
  = filter (λ x, stored_ts x = t) (m :: l).
Proof.
  induction l as [|y l IH]; simpl; [done|].
  destruct (Z.leb_spec (stored_ts m) (stored_ts y)) as [Hle|Hgt]; [done|].
  rewrite (filter_cons _ y), IH, !filter_cons.
  repeat case_decide; try done; lia.
Qed.

Lemma sort_by_ts_stable t l :
  filter (λ x, stored_ts x = t) (sort_by_ts l) = filter (λ x, stored_ts x = t) l.
Proof.
  induction l as [|m l IH]; simpl; [done|].
  by rewrite insert_by_ts_stable, !filter_cons, IH.
Qed.

(** X21: without MongoDB, [GET /messages] answers with at most 200
    messages, all taken from the in-memory store and all of the room asked
    for (of any room when none is asked for), in the order of their time
    stamps, messages of equal time stamp in the order they were stored.
    When more than 200 match, those left out are not newer than any of
    those returned; when at most 200 match, all of them are returned. *)
Theorem message_history_last_200 q_room s :
  let matching := filter (λ m, room_matches q_room m = true) (inMemMessages s) in
  let res := get_messages q_room None s in
  (length res ≤ 200)%nat
  ∧ StronglySorted ts_le res
  ∧ (∀ m, m ∈ res → m ∈ inMemMessages s ∧ room_matches q_room m = true)
  ∧ (∃ older, older ++ res ≡ₚ matching
              ∧ (∀ t, filter (λ x, stored_ts x = t) (older ++ res)
                      = filter (λ x, stored_ts x = t) matching)
              ∧ (∀ m m', m ∈ older → m' ∈ res → ts_le m m')
              ∧ ((length matching ≤ 200)%nat → older = [])).
Proof.
  intros matching res.
  assert (take (length (sort_by_ts matching) - 200) (sort_by_ts matching) ++ res
          = sort_by_ts matching) as Hsplit by apply take_drop.
  pose proof (sort_by_ts_sorted matching) as Hsorted.
  pose proof (sort_by_ts_perm matching) as Hperm.
  set (older := take (length (sort_by_ts matching) - 200) (sort_by_ts matching)) in *.
  split; [|split; [|split]].
  - subst res. unfold get_messages, slice_last. rewrite length_drop. lia.
  - rewrite <- Hsplit in Hsorted. by apply sorting.StronglySorted_app_1_r in Hsorted.
  - intros m Hm.
    assert (m ∈ matching) as Hin.
    { rewrite <- Hperm, <- Hsplit. apply elem_of_app. by right. }
    subst matching. by apply list_elem_of_filter in Hin as [? ?].
  - exists older. split; [by rewrite Hsplit|]. split; [|split].
    + intros t. rewrite Hsplit. apply sort_by_ts_stable.
    + intros m m' Hm Hm'. rewrite <- Hsplit in Hsorted.
      change (ts_le m m'). by eapply sorting.StronglySorted_app_1_elem_of.
    + intros Hlen. subst older.
      rewrite (Permutation_length Hperm).
      replace (length matching - 200)%nat with 0%nat by lia. done.
Qed.
End History.

(** ** Start-up *)

Section Startup.

(** X22: [startListening] settles on the first port, from the one given
    upwards, on which the listen does not fail, and tries at most
    [retries] ports beyond the first.  It ends up listening on [p] exactly
    when [p] lies between [port] and [port + retries], the listen on [p]
    succeeds and on every port from [port] up to [p] the address is in
    use.  If every port from [port] to [port + retries] is in use, or the
    first port that is not in use fails with another error, the process
    exits. *)
Theorem startListening_first_free listen retries : ∀ port p,
  (startListening listen port retries = Some p
   ↔ port <= p <= port + Z.of_nat retries
     ∧ listen p = Listening
     ∧ ∀ q, port <= q < p → listen q = AddrInUse)
  ∧ ((∀ q, port <= q <= port + Z.of_nat retries → listen q = AddrInUse) →
     startListening listen port retries = None)
  ∧ (port <= p <= port + Z.of_nat retries →
     listen p = OtherError →
     (∀ q, port <= q < p → listen q = AddrInUse) →
     startListening listen port retries = None).
Proof.
  induction retries as [|r IH]; intros port p; simpl.
  - split; [split|split].
    + destruct (listen port) eqn:Hl; try done.
      intros [= <-]. split; [lia|]. split; [done|]. intros q Hq. lia.
    + intros (Hp & Hlp & Hbefore). assert (p = port) as -> by lia. by rewrite Hlp.
    + intros Hall. rewrite (Hall port) by lia. done.
    + intros Hp Herr _. assert (p = port) as -> by lia. by rewrite Herr.
  - destruct (IH (port + 1) p) as (IH1 & IH2 & IH3). split; [split|split].
    + destruct (listen port) eqn:Hl; try done.
      * intros [= <-]. split; [lia|]. split; [done|]. intros q Hq. lia.
      * intros Hp. apply IH1 in Hp as (Hr & Hlp & Hbefore).
        split; [lia|]. split; [done|]. intros q Hq.
        destruct (decide (q = port)) as [->|Hne]; [done|]. apply Hbefore. lia.
    + intros (Hp & Hlp & Hbefore). destruct (decide (p = port)) as [->|Hne].
      * by rewrite Hlp.
      * rewrite (Hbefore port) by lia. apply IH1.
        split; [lia|]. split; [done|]. intros q Hq. apply Hbefore. lia.
    + intros Hall. rewrite (Hall port) by lia.
      destruct (IH (port + 1) port) as (_ & IHall & _). apply IHall.
      intros q Hq. apply Hall. lia.
    + intros Hp Herr Hbefore. destruct (decide (p = port)) as [->|Hne].
      * by rewrite Herr.
      * rewrite (Hbefore port) by lia. apply IH3; [lia|done|].
        intros q Hq. apply Hbefore. lia.
Qed.

Lemma connect_loop_spec connect remaining : ∀ attempt,
  let r := connect_loop connect attempt remaining in
  (attempts r ≤ remaining)%nat
  ∧ (∀ j, (j + 1 < attempts r)%nat → connect (attempt + j)%nat = false)
  ∧ (if mongoConnected r
     then (1 ≤ attempts r)%nat
          ∧ connect (attempt + attempts r - 1)%nat = true
          ∧ pauses r = (attempts r - 1)%nat
     else attempts r = remaining
          ∧ (∀ j, (j < remaining)%nat → connect (attempt + j)%nat = false)
          ∧ pauses r = (remaining - 1)%nat).
Proof.
  induction remaining as [|n IH]; intros attempt; simpl.
  - repeat split; intros; lia.
  - destruct (connect attempt) eqn:Hc; simpl.
    + split; [lia|]. split; [intros j Hj; lia|]. split; [lia|]. split; [|done].
      by replace (attempt + 1 - 1)%nat with attempt by lia.
    + specialize (IH (S attempt)). simpl in IH.
      destruct IH as (Hle & Hbefore & Hend). split; [lia|]. split.
      * intros j Hj. destruct j as [|j]; [by rewrite Nat.add_0_r|].
        replace (attempt + S j)%nat with (S attempt + j)%nat by lia.
        apply Hbefore. lia.
      * destruct (mongoConnected (connect_loop connect (S attempt) n)).
        -- destruct Hend as (H1 & H2 & H3). split; [lia|]. split.
           ++ by replace (attempt + S (attempts (connect_loop connect (S attempt) n)) - 1)%nat
                with (S attempt + attempts (connect_loop connect (S attempt) n) - 1)%nat
                by lia.
           ++ rewrite H3. destruct n; lia.
        -- destruct Hend as (H1 & H2 & H3). split; [lia|]. split.
           ++ intros j Hj. destruct j as [|j]; [by rewrite Nat.add_0_r|].
              replace (attempt + S j)%nat with (S attempt + j)%nat by lia.
              apply H2. lia.
           ++ rewrite H3. destruct n; lia.
Qed.

(** X23: [connectToMongo], when the in-memory option is off.  Without
    [MONGODB_URI] no attempt is made, no pause either, and the flag
    [mongoConnected] stays false.  With it, [mongoose.connect] is tried at
    most 10 times and the loop stops at the first attempt that resolves:
    if attempt [k] is the first to resolve, [k] attempts are made, with a
    pause after each of the [k - 1] failed ones, and the flag is set; if
    all 10 attempts fail, 10 attempts are made with 9 pauses, none after
    the tenth, and the flag stays false. *)
Theorem connectToMongo_retries uri connect :
  let r := connectToMongo false false uri connect in
  (uri = "" → r = mkMongoStart false 0 0)
  ∧ (uri ≠ "" →
     (∀ k, (1 ≤ k ≤ 10)%nat →
           (∀ j, (1 ≤ j < k)%nat → connect j = false) →
           connect k = true →
           r = mkMongoStart true k (k - 1))
     ∧ ((∀ k, (1 ≤ k ≤ 10)%nat → connect k = false) →
        r = mkMongoStart false 10 9))
  ∧ (attempts r ≤ 10)%nat
  ∧ (∀ k, (1 ≤ k < attempts r)%nat → connect k = false)
  ∧ (mongoConnected r = true →
     (1 ≤ attempts r)%nat ∧ connect (attempts r) = true
     ∧ pauses r = (attempts r - 1)%nat).
Proof.
  unfold connectToMongo.
  pose proof (connect_loop_spec connect 10 1) as Hspec.
  destruct (truthy uri) eqn:Huri; cbn [negb].
  - assert (uri ≠ "") as Hne by (intros ->; done).
    cbv zeta in Hspec. cbv zeta.
    set (r := connect_loop connect 1 10) in *. clearbody r.
    destruct Hspec as (Hle & Hbefore & Hend).
    assert (∀ k, (1 ≤ k < attempts r)%nat → connect k = false) as Hfailed.
    { intros k Hk. replace k with (1 + (k - 1))%nat by lia. apply Hbefore. lia. }
    split; [done|]. split; [|split; [done|split; [done|]]].
    + intros _. split.
      * intros k Hk Hfirst Hok. destruct r as [[] a z]; simpl in *.
        -- destruct Hend as (H1 & H2 & H3).
           replace (1 + a - 1)%nat with a in H2 by lia.
           assert (a = k) as ->.
           { destruct (Nat.lt_trichotomy a k) as [Hlt|[Heq|Hgt]]; [|done|].
             - rewrite Hfirst in H2 by lia. done.
             - rewrite Hfailed in Hok by lia. done. }
           by rewrite H3.
        -- destruct Hend as (H1 & H2 & H3).
           assert (connect k = false) as Hk'.
           { replace k with (1 + (k - 1))%nat by lia. apply H2. lia. }
           congruence.
      * intros Hall. destruct r as [[] a z]; simpl in *.
        -- destruct Hend as (H1 & H2 & H3).
           replace (1 + a - 1)%nat with a in H2 by lia.
           rewrite Hall in H2 by lia. done.
        -- destruct Hend as (H1 & H2 & H3). by rewrite H1, H3.
    + intros Hconn. rewrite Hconn in Hend. destruct Hend as (H1 & H2 & H3).
      split; [done|]. split; [|done].
      by replace (1 + attempts r - 1)%nat with (attempts r) in H2 by lia.
  - assert (uri = "") as -> by (by destruct uri).
    simpl. split; [done|]. split; [done|]. split; [lia|]. split; [intros; lia|done].
Qed.
End Startup.

(** ** Who hears of a room change, and a leave by a stranger *)

Section Notifications.
Implicit Types (s : Server) (rs : list (string * string)).

Lemma socket_join_elem r x m rs : m ∈ socket_join r x rs ↔ m = (r, x) ∨ m ∈ rs.
Proof.
  unfold socket_join. case_bool_decide as Hin.
  - naive_solver.
  - rewrite elem_of_app, list_elem_of_singleton. naive_solver.
Qed.

Lemma socket_leave_elem r x m rs : m ∈ socket_leave r x rs ↔ m ∈ rs ∧ m ≠ (r, x).
Proof. unfold socket_leave. rewrite list_elem_of_filter. naive_solver. Qed.

(** X24: a room change is announced in one room only.  When a socket
    that is in room [prev] sends ['joinRoom'] for another room [r], it
    receives ['room:join'] and the roster of [r] itself, and a socket that
    is not in [r] hears nothing, the members of [prev] included: no
    ['room:leave'] goes to the room left.  When it sends ['leaveRoom']
    instead, the other members of [prev] receive ['room:leave'] and the
    roster, and the leaving socket receives neither. *)
Theorem room_change_notifications sid room r prev s :
  nonempty room = Some r →
  prev_room sid s = Some prev →
  prev ≠ r →
  let j := on_joinRoom sid room s in
  let l := on_leaveRoom sid s in
  events_reaching j.1 sid j.2 = ["room:join"; "usersInRoom"]
  ∧ (∀ x, x ≠ sid → (r, x) ∉ rooms s → events_reaching j.1 x j.2 = [])
  ∧ events_reaching l.1 sid l.2 = []
  ∧ (∀ x, x ≠ sid → (prev, x) ∈ rooms s →
          events_reaching l.1 x l.2 = ["room:leave"; "usersInRoom"]).
Proof.
  intros Hroom Hprev Hne j l.
  assert (∀ x, x ∈ room_members r (rooms j.1) ↔ x = sid ∨ (r, x) ∈ rooms s) as Hj.
  { intros x. subst j. unfold on_joinRoom. rewrite Hroom, Hprev. simpl.
    rewrite room_members_elem, socket_join_elem, socket_leave_elem. naive_solver. }
  assert (∀ x, x ∈ room_members prev (rooms l.1) ↔ (prev, x) ∈ rooms s ∧ x ≠ sid) as Hl.
  { intros x. subst l. unfold on_leaveRoom. rewrite Hprev. simpl.
    rewrite room_members_elem, socket_leave_elem. naive_solver. }
  assert (∀ x, events_reaching j.1 x j.2
               = if bool_decide (x ∈ room_members r (rooms j.1))
                 then ["room:join"; "usersInRoom"] else []) as Hjev.
  { intros x. unfold events_reaching.
    subst j. unfold on_joinRoom. rewrite Hroom, Hprev. simpl.
    destruct (redis s); simpl; by case_bool_decide. }
  assert (∀ x, events_reaching l.1 x l.2
               = if bool_decide (x ∈ room_members prev (rooms l.1))
                 then ["room:leave"; "usersInRoom"] else []) as Hlev.
  { intros x. unfold events_reaching.
    subst l. unfold on_leaveRoom. rewrite Hprev. simpl.
    destruct (redis s); simpl; by case_bool_decide. }
  split; [|split; [|split]].
  - rewrite Hjev, bool_decide_eq_true_2; [done|]. apply Hj. by left.
  - intros x Hx Hnot. rewrite Hjev, bool_decide_eq_false_2; [done|].
    rewrite Hj. naive_solver.
  - rewrite Hlev, bool_decide_eq_false_2; [done|]. rewrite Hl. naive_solver.
  - intros x Hx Hin. rewrite Hlev, bool_decide_eq_true_2; [done|]. by apply Hl.
Qed.

Lemma jsset_delete_absent x (ps : list string) : x ∉ ps → jsset_delete x ps = ps.
Proof.
  intros Hx. unfold jsset_delete. induction ps as [|y ps IH]; [done|].
  rewrite filter_cons. apply not_elem_of_cons in Hx as [Hne Hx].
  rewrite decide_True by done. by rewrite IH.
Qed.

(** X25: ['call:leave'] does not ask whether the sender is in the call.
    Sent by a socket that is not a participant, it ends a session that
    nobody has joined yet, removing it from the active set and finalizing
    its log entry; on a session that has participants it changes nothing
    on the server.  In both cases the participant list is sent to the
    scope of the call once more. *)
Theorem call_leave_by_stranger x cid now st s :
  activeCalls s !! cid = Some st →
  x ∉ call_participants st →
  let r := on_call_leave x cid now s in
  match call_participants st with
  | [] => activeCalls r.1 = delete cid (activeCalls s)
          ∧ callLogs r.1 = finalize cid now (callLogs s)
  | _ :: _ => r.1 = s
  end
  ∧ r.2 = [Emit (call_scope st) "call:participants"
                (PCallParticipants cid (call_participants st))].
Proof.
  intros Hst Hx r. subst r. unfold on_call_leave. rewrite Hst. simpl.
  rewrite (jsset_delete_absent x _ Hx).
  assert (set_call_participants (call_participants st) st = st) as -> by (by destruct st).
  split; [|done].
  destruct (call_participants st) as [|p ps]; simpl.
  - split; [apply delete_insert_eq|done].
  - rewrite (insert_id _ _ _ Hst). by destruct s.
Qed.
End Notifications.

Lemma room_change_notifications_witness :
  let s := (run (connections ["A"; "B"]
                 ++ [mkInput "A" 1 1 (JoinRoom (Some "lobby"));
                     mkInput "B" 2 2 (JoinRoom (Some "lobby"))]) (initial true)).1 in
  let j := on_joinRoom "A" (Some "dev") s in
  let l := on_leaveRoom "A" s in
  events_reaching j.1 "A" j.2 = ["room:join"; "usersInRoom"]
  ∧ (∀ x, x ≠ "A" → ("dev", x) ∉ rooms s → events_reaching j.1 x j.2 = [])
  ∧ events_reaching l.1 "A" l.2 = []
  ∧ (∀ x, x ≠ "A" → ("lobby", x) ∈ rooms s →
          events_reaching l.1 x l.2 = ["room:leave"; "usersInRoom"]).
Proof.
  apply (room_change_notifications "A" (Some "dev") "dev" "lobby").
  - reflexivity.
  - reflexivity.
  - discriminate.
Defined.

Lemma call_leave_by_stranger_witness :
  let s := (run (connections ["A"; "B"]
                 ++ [mkInput "A" 10 11 (CallInvite "c1" None Video (Some "B"))])
              (initial false)).1 in
  let st := mkCall None Video [] 10 "A" in
  let r := on_call_leave "B" "c1" 20 s in
  match call_participants st with
  | [] => activeCalls r.1 = delete "c1" (activeCalls s)
          ∧ callLogs r.1 = finalize "c1" 20 (callLogs s)
  | _ :: _ => r.1 = s
  end
  ∧ r.2 = [Emit (call_scope st) "call:participants"
                (PCallParticipants "c1" (call_participants st))].
Proof.
  apply (call_leave_by_stranger "B" "c1" 20 (mkCall None Video [] 10 "A")).
  - reflexivity.
  - apply not_elem_of_nil.
Defined.

Lemma active_sessions_are_logged_witness :
  let inputs := connections ["A"; "B"]
                ++ [mkInput "A" 10 11 (CallInvite "g1" (Some "lobby") Audio None);
                    mkInput "B" 12 12 (CallJoin "g1")] in
  let s := (run inputs (initial false)).1 in
  logged_open "g1" (mkCall (Some "lobby") Audio ["B"] 10 "A") (callLogs s).
Proof.
  apply (active_sessions_are_logged false
           (connections ["A"; "B"]
            ++ [mkInput "A" 10 11 (CallInvite "g1" (Some "lobby") Audio None);
                mkInput "B" 12 12 (CallJoin "g1")])
           "g1" (mkCall (Some "lobby") Audio ["B"] 10 "A")).
  reflexivity.
Defined.
